(** * The asserter of fixentropy-model: rules, results and reports

    A shallow embedding of [src/asserter/index.ts].  The asserter runs the
    handlers of its rules over a list of dragees, stamps every result with
    the id of the rule that returned it, and folds the results into a report.

    Result and error objects are JavaScript objects that the asserter
    mutates in place ([result.ruleId = rule.id]), so they live in an explicit
    store and the functions that build or update them are written in a state
    monad over that store. *)

From stdpp Require Import base option list strings.

Local Open Scope string_scope.
Local Open Scope nat_scope.
Local Open Scope list_scope.

(** ** Dragees *)

(** Modelled from the spec: the [Dragee] type is declared in [../common],
    which the asserter only imports.  A dragee has a [name] and an optional
    [depends_on] object whose keys are the names of other dragees and whose
    values are dependency metadata, which the asserter never looks at.  The
    object is kept as the list of its entries in key iteration order, so that
    [Object.keys] is the list of first components. *)
Definition DependencyMetadata : Type := string.

Record Dragee : Type := mkDragee {
  name : string;
  depends_on : option (list (string * DependencyMetadata))
}.

#[global] Instance DependencyEntry_eq_dec : EqDecision (string * DependencyMetadata).
Proof. unfold DependencyMetadata. apply _. Defined.

#[global] Instance Dragee_eq_dec : EqDecision Dragee.
Proof. solve_decision. Defined.

(** [Object.keys(o)] *)
Definition Object_keys {V : Type} (o : list (string * V)) : list string :=
  map fst o.

(** [xs.filter((x): x is T => x !== undefined)] *)
Definition defined {A : Type} (xs : list (option A)) : list A :=
  omap (fun x => x) xs.

Record Dependencies : Type := mkDependencies {
  root : Dragee;
  dependencies : list Dragee
}.

Definition directDependencies (root : Dragee) (allDragees : list Dragee) : Dependencies :=
  match depends_on root with
  | None => {| root := root; dependencies := [] |}
  | Some deps =>
      let dependencies :=
        defined
          (map (fun dependency =>
                  List.find (fun dragee => String.eqb (name dragee) dependency) allDragees)
               (Object_keys deps)) in
      {| root := root; dependencies := dependencies |}
  end.

(** The callback of [find] in [directDependencies]. *)
Definition named (key : string) : Dragee -> bool :=
  fun dragee => String.eqb (name dragee) key.

(** ** Result and error objects, and the store they live in *)

(** A reference to an object of the store. *)
Definition loc : Type := nat.

Module RuleError.
Record t : Type := mk {
  ruleId : option string;
  message : string;
  drageeName : string
}.

(** [error.ruleId = id] *)
Definition set_ruleId (id : option string) (error : t) : t :=
  {| ruleId := id; message := message error; drageeName := drageeName error |}.

#[global] Instance inhabited : Inhabited t := populate (mk None EmptyString EmptyString).
#[global] Instance eq_dec : EqDecision t.
Proof. solve_decision. Defined.
End RuleError.

Module RuleResult.
(** [SuccessfulRuleResult | FailedRuleResult]: the [pass] field is the tag,
    and a failed result holds a reference to its error object. *)
Inductive t : Type :=
| Successful (ruleId : option string)
| Failed (ruleId : option string) (error : loc).

Definition pass (result : t) : bool :=
  match result with
  | Successful _ => true
  | Failed _ _ => false
  end.

Definition ruleId (result : t) : option string :=
  match result with
  | Successful ruleId => ruleId
  | Failed ruleId _ => ruleId
  end.

Definition error (result : t) : option loc :=
  match result with
  | Successful _ => None
  | Failed _ error => Some error
  end.

(** [result.ruleId = id] *)
Definition set_ruleId (id : option string) (result : t) : t :=
  match result with
  | Successful _ => Successful id
  | Failed _ error => Failed id error
  end.

#[global] Instance inhabited : Inhabited t := populate (Successful None).
#[global] Instance eq_dec : EqDecision t.
Proof. solve_decision. Defined.
End RuleResult.

(** The store holds the result objects and the error objects built so far; a
    reference is an index into the list of its kind, and a new object is put
    at the end.  A JavaScript reference always denotes an object: the
    references that the functions below return are indices of the store they
    return.  Reading with [!!!] and writing with [alter] are total, so that
    the operations need no side condition. *)
Record Store : Type := mkStore {
  resultObjects : list RuleResult.t;
  errorObjects : list RuleError.t
}.

(** Computations that read and update the store. *)
Definition M (A : Type) : Type := Store -> A * Store.

Definition ret {A : Type} (a : A) : M A := fun s => (a, s).

Definition bind {A B : Type} (m : M A) (k : A -> M B) : M B :=
  fun s => let (a, s') := m s in k a s'.

Declare Scope store_scope.
Delimit Scope store_scope with store.
Notation "'do' x <- m ; k" := (bind m (fun x => k))
  (at level 10, x name, m at level 100, k at level 200) : store_scope.
Local Open Scope store_scope.

(** [xs.map(f)], for a callback with effects: calls run from left to right. *)
Fixpoint Array_map {A B : Type} (f : A -> M B) (xs : list A) : M (list B) :=
  match xs with
  | [] => ret []
  | x :: xs =>
      do y <- f x;
      do ys <- Array_map f xs;
      ret (y :: ys)
  end.

(** [xs.flatMap(f)] *)
Fixpoint Array_flatMap {A B : Type} (f : A -> M (list B)) (xs : list A) : M (list B) :=
  match xs with
  | [] => ret []
  | x :: xs =>
      do ys <- f x;
      do rest <- Array_flatMap f xs;
      ret (ys ++ rest)
  end.

(** Reading [results[i]] through its reference. *)
Definition readResult (s : Store) (result : loc) : RuleResult.t :=
  resultObjects s !!! result.

Definition readError (s : Store) (error : loc) : RuleError.t :=
  errorObjects s !!! error.

(** [results.filter(result => p(result))]: reads the objects, changes nothing. *)
Definition filterResults (p : RuleResult.t -> bool) (results : list loc) : M (list loc) :=
  fun s => (List.filter (fun result => p (readResult s result)) results, s).

(** An object literal builds a new object. *)
Definition newResult (result : RuleResult.t) : M loc :=
  fun s => (length (resultObjects s),
            {| resultObjects := resultObjects s ++ [result];
               errorObjects := errorObjects s |}).

Definition newError (error : RuleError.t) : M loc :=
  fun s => (length (errorObjects s),
            {| resultObjects := resultObjects s;
               errorObjects := errorObjects s ++ [error] |}).

Definition successful : M loc :=
  newResult (RuleResult.Successful None).

Definition failed (dragee : Dragee) (message : string) : M loc :=
  do error <- newError {| RuleError.ruleId := None;
                          RuleError.message := message;
                          RuleError.drageeName := name dragee |};
  newResult (RuleResult.Failed None error).

(** ** Rules and asserters *)

Inductive RuleSeverity : Type := ERROR | WARN | INFO.

Definition Handler : Type := list Dragee -> M (list loc).

Module DeclaredRule.
(** The object that a rule file exports.  Its type declares [label],
    [severity] and [handler]; the object is loaded by [require] and cast to
    that type, so it may carry an [id] of its own as well. *)
Record t : Type := mk {
  label : string;
  severity : RuleSeverity;
  handler : Handler;
  id : option string
}.
End DeclaredRule.

Module Rule.
Record t : Type := mk {
  id : string;
  label : string;
  severity : RuleSeverity;
  handler : Handler
}.
End Rule.

(** [{ id: generateId(namespace, rule.label), ...rule }].  [generateId] is
    imported from [../common]; it is a parameter here.  The spread comes
    after [id]: it copies the fields of the declared rule, and an [id] that
    the object has of its own replaces the generated one. *)
Definition declaredRuleToRule (generateId : string -> string -> string)
    (namespace : string) (rule : DeclaredRule.t) : Rule.t :=
  {| Rule.id :=
       match DeclaredRule.id rule with
       | Some own => own
       | None => generateId namespace (DeclaredRule.label rule)
       end;
     Rule.label := DeclaredRule.label rule;
     Rule.severity := DeclaredRule.severity rule;
     Rule.handler := DeclaredRule.handler rule |}.

Module Asserter.
Record t : Type := mk {
  namespace : string;
  rules : list Rule.t;
  rule : string -> option Rule.t
}.
End Asserter.

(** ** Reports *)

Record ReportStats : Type := mkReportStats {
  rulesCount : nat;
  passCount : nat;
  errorsCount : nat
}.

Module Report.
Record t : Type := mk {
  pass : bool;
  namespace : string;
  errors : list loc;
  stats : ReportStats
}.
End Report.

(** [result => { result.ruleId = rule.id; return result; }] *)
Definition stampRuleId (rule : Rule.t) (result : loc) : M loc :=
  fun s =>
    (result,
     {| resultObjects :=
          alter (RuleResult.set_ruleId (Some (Rule.id rule))) result (resultObjects s);
        errorObjects := errorObjects s |}).

(** [result => { result.error.ruleId = result.ruleId; return result.error; }],
    applied to the results that the filter narrowed to [FailedRuleResult]. *)
Definition stampError (result : loc) : M (option loc) :=
  fun s =>
    match readResult s result with
    | RuleResult.Failed ruleId error =>
        (Some error,
         {| resultObjects := resultObjects s;
            errorObjects := alter (RuleError.set_ruleId ruleId) error (errorObjects s) |})
    | RuleResult.Successful _ => (None, s)
    end.

Definition asserterHandler (asserter : Asserter.t) (dragees : list Dragee) : M Report.t :=
  do rulesResults <-
    Array_flatMap (fun rule =>
                do results <- Rule.handler rule dragees;
                Array_map (stampRuleId rule) results)
             (Asserter.rules asserter);
  do failedResults <- filterResults (fun result => negb (RuleResult.pass result)) rulesResults;
  do stamped <- Array_map stampError failedResults;
  let rulesResultsErrors := defined stamped in
  do rulesResultsPassed <- filterResults (fun result => RuleResult.pass result) rulesResults;
  ret {| Report.pass := Nat.eqb (length rulesResultsErrors) 0;
         Report.namespace := Asserter.namespace asserter;
         Report.errors := rulesResultsErrors;
         Report.stats :=
           {| errorsCount := length rulesResultsErrors;
              passCount := length rulesResultsPassed;
              rulesCount := length (Asserter.rules asserter) |} |}.

Definition generateReportForRule (asserter : Asserter.t) (dragees : list Dragee)
    (file : string) : M Report.t :=
  match Asserter.rule asserter file with
  | None =>
      ret {| Report.pass := true;
             Report.namespace := Asserter.namespace asserter;
             Report.errors := [];
             Report.stats := {| errorsCount := 0; passCount := 0; rulesCount := 0 |} |}
  | Some rule =>
      do ruleResults <-
        (do results <- Rule.handler rule dragees;
         Array_map (stampRuleId rule) results);
      do failedResults <- filterResults (fun result => negb (RuleResult.pass result)) ruleResults;
      do stamped <- Array_map stampError failedResults;
      let rulesResultsErrors := defined stamped in
      do rulesResultsPassed <- filterResults (fun result => RuleResult.pass result) ruleResults;
      ret {| Report.pass := Nat.eqb (length rulesResultsErrors) 0;
             Report.namespace := Asserter.namespace asserter;
             Report.errors := rulesResultsErrors;
             Report.stats :=
               {| errorsCount := length rulesResultsErrors;
                  passCount := length rulesResultsPassed;
                  rulesCount := length (Asserter.rules asserter) |} |}
  end.

(** ** The helpers for rule authors *)

Definition expectDragee (root dragee : Dragee) (errorMsg : string)
    (evalFn : Dragee -> bool) : M loc :=
  if evalFn dragee then successful else failed root errorMsg.

Definition expectDragees (root : Dragee) (dependancies : list Dragee) (errorMsg : string)
    (evalFn : list Dragee -> bool) : M loc :=
  if evalFn dependancies then successful else failed root errorMsg.

Definition multipleExpectDragees (root : Dragee) (dragees : list Dragee)
    (errorMsg : string) (evalFn : Dragee -> bool) : M (list loc) :=
  Array_map (fun d => if evalFn d then successful else failed root errorMsg) dragees.

(** ** Notions used to state the properties *)

(** Running one rule: its handler, then the stamp on every result. *)
Definition runRule (dragees : list Dragee) (rule : Rule.t) : M (list loc) :=
  do results <- Rule.handler rule dragees;
  Array_map (stampRuleId rule) results.

(** The aggregation that both entry points apply to the collected results. *)
Definition aggregate (asserter : Asserter.t) (rulesResults : list loc) : M Report.t :=
  do failedResults <- filterResults (fun result => negb (RuleResult.pass result)) rulesResults;
  do stamped <- Array_map stampError failedResults;
  let rulesResultsErrors := defined stamped in
  do rulesResultsPassed <- filterResults (fun result => RuleResult.pass result) rulesResults;
  ret {| Report.pass := Nat.eqb (length rulesResultsErrors) 0;
         Report.namespace := Asserter.namespace asserter;
         Report.errors := rulesResultsErrors;
         Report.stats :=
           {| errorsCount := length rulesResultsErrors;
              passCount := length rulesResultsPassed;
              rulesCount := length (Asserter.rules asserter) |} |}.

(** The handler calls that [asserterHandler] makes, in the order it makes
    them: for each call, the rule and the results its handler returned. *)
Definition handlerCalls (dragees : list Dragee) (rules : list Rule.t)
    : M (list (Rule.t * list loc)) :=
  Array_map (fun rule =>
               do results <- Rule.handler rule dragees;
               do stamped <- Array_map (stampRuleId rule) results;
               ret (rule, results))
            rules.

(** The number of results returned over all the handler calls. *)
Definition returnedCount (calls : list (Rule.t * list loc)) : nat :=
  sum_list (map (fun call => length (snd call)) calls).

(** A result seen through its reference: stamped with the id of [rule], and
    so is its error when it has one. *)
Definition stampedBy (s : Store) (rule : Rule.t) (result : loc) : Prop :=
  RuleResult.ruleId (readResult s result) = Some (Rule.id rule)
  /\ forall error,
       RuleResult.error (readResult s result) = Some error ->
       RuleError.ruleId (readError s error) = Some (Rule.id rule).

(** What a report says once the references of its [errors] are followed. *)
Module ReportValue.
Record t : Type := mk {
  pass : bool;
  namespace : string;
  errors : list RuleError.t;
  stats : ReportStats
}.
End ReportValue.

Definition reportValue (s : Store) (report : Report.t) : ReportValue.t :=
  {| ReportValue.pass := Report.pass report;
     ReportValue.namespace := Report.namespace report;
     ReportValue.errors := map (readError s) (Report.errors report);
     ReportValue.stats := Report.stats report |}.

(** What a handler decides for one check, before the result object exists. *)
Inductive Verdict : Type :=
| Holds
| Broken (dragee : Dragee) (message : string).

(** Building the result of a verdict with the constructors of the module. *)
Definition construct (verdict : Verdict) : M loc :=
  match verdict with
  | Holds => successful
  | Broken dragee message => failed dragee message
  end.

(** A handler that is a pure function of the dragees: the dragees alone
    decide the verdicts, and every call builds the results of these verdicts
    anew with [successful] and [failed]; it keeps no object from one call to
    the next and writes to no object that exists. *)
Definition pureHandler (handler : Handler) : Prop :=
  exists verdicts : list Dragee -> list Verdict,
    forall dragees s, handler dragees s = Array_map construct (verdicts dragees) s.

Definition pureRule (rule : Rule.t) : Prop := pureHandler (Rule.handler rule).

(** The result objects after [result.ruleId = id] for every result of a list. *)
Definition stampAll (id : option string) (results : list loc)
    (objects : list RuleResult.t) : list RuleResult.t :=
  foldl (fun objects result => alter (RuleResult.set_ruleId id) result objects)
        objects results.

(** The error objects after [result.error.ruleId = result.ruleId] for every
    result of a list, the result objects being [objects]. *)
Definition propagate (objects : list RuleResult.t) (results : list loc)
    (errors : list RuleError.t) : list RuleError.t :=
  foldl (fun errors result =>
           match objects !!! result with
           | RuleResult.Failed ruleId error =>
               alter (RuleError.set_ruleId ruleId) error errors
           | RuleResult.Successful _ => errors
           end)
        errors results.

(** What the callback of [multipleExpectDragees] decides for a dragee. *)
Definition verdictFor (root : Dragee) (errorMsg : string) (evalFn : Dragee -> bool)
    (d : Dragee) : Verdict :=
  if evalFn d then Holds else Broken root errorMsg.

(** The handler of [rule] decides by [verdicts] and builds its results anew. *)
Definition decides (rule : Rule.t) (verdicts : list Dragee -> list Verdict) : Prop :=
  forall dragees s, Rule.handler rule dragees s = Array_map construct (verdicts dragees) s.

(** The verdicts of one run over the rules, each with the rule that gave it. *)
Fixpoint verdictsOf (dragees : list Dragee) (rules : list Rule.t)
    (decisions : list (list Dragee -> list Verdict)) : list (Rule.t * Verdict) :=
  match rules, decisions with
  | rule :: rules, verdicts :: decisions =>
      map (pair rule) (verdicts dragees) ++ verdictsOf dragees rules decisions
  | _, _ => []
  end.

Definition stampOf (owned : Rule.t * Verdict) : option string * Verdict :=
  (Some (Rule.id (fst owned)), snd owned).

Definition unstamped (stamped : option string * Verdict) : option string * Verdict :=
  (None, snd stamped).

(** The result objects built for a list of verdicts, each with the [ruleId]
    it carries, when the error objects are put from [e0] on. *)
Fixpoint builtResults (e0 : nat) (verdicts : list (option string * Verdict))
    : list RuleResult.t :=
  match verdicts with
  | [] => []
  | (id, Holds) :: verdicts => RuleResult.Successful id :: builtResults e0 verdicts
  | (id, Broken _ _) :: verdicts => RuleResult.Failed id e0 :: builtResults (S e0) verdicts
  end.

Definition builtError (verdict : option string * Verdict) : option RuleError.t :=
  match snd verdict with
  | Holds => None
  | Broken dragee message =>
      Some {| RuleError.ruleId := fst verdict;
              RuleError.message := message;
              RuleError.drageeName := name dragee |}
  end.

(** The error objects built for a list of verdicts. *)
Definition builtErrors (verdicts : list (option string * Verdict)) : list RuleError.t :=
  omap builtError verdicts.

Definition passes (verdict : option string * Verdict) : bool :=
  match snd verdict with
  | Holds => true
  | Broken _ _ => false
  end.

(** The value of the report for a list of stamped verdicts. *)
Definition reportOf (asserter : Asserter.t) (verdicts : list (option string * Verdict))
    : ReportValue.t :=
  {| ReportValue.pass := Nat.eqb (length (builtErrors verdicts)) 0;
     ReportValue.namespace := Asserter.namespace asserter;
     ReportValue.errors := builtErrors verdicts;
     ReportValue.stats :=
       {| errorsCount := length (builtErrors verdicts);
          passCount := length (List.filter passes verdicts);
          rulesCount := length (Asserter.rules asserter) |} |}.

(** [result.error.ruleId = result.ruleId] seen from the result object. *)
Definition stampInto (errors : list RuleError.t) (object : RuleResult.t)
    : list RuleError.t :=
  match object with
  | RuleResult.Failed ruleId error => alter (RuleError.set_ruleId ruleId) error errors
  | RuleResult.Successful _ => errors
  end.

(** A handler that only adds objects to the store: the result objects that
    exist are left as they are, no error object is removed, and the results
    it returns, and the errors of those that failed, are objects of the store
    it leaves. *)
Definition addsOnly (handler : Handler) : Prop :=
  forall dragees s,
    let (results, s') := handler dragees s in
    (exists added, resultObjects s' = resultObjects s ++ added)
    /\ length (errorObjects s) <= length (errorObjects s')
    /\ Forall (fun result =>
                 result < length (resultObjects s')
                 /\ forall error,
                      RuleResult.error (readResult s' result) = Some error ->
                      error < length (errorObjects s'))
              results.

(** No object is shared during a call of [asserterHandler]: no result object
    is returned twice, by one handler or by two, and no error object is held
    by two of the failed results. *)
Definition noSharing (asserter : Asserter.t) (dragees : list Dragee) (s : Store) : Prop :=
  let (calls, s1) := handlerCalls dragees (Asserter.rules asserter) s in
  NoDup (concat (map snd calls))
  /\ NoDup (omap (fun result => RuleResult.error (readResult s1 result))
                 (concat (map snd calls))).

(** The statement that every result is stamped by the rule that returned it:
    [asserterHandler] calls the handlers in the order of the rules; once it
    is done, every result returned by a call carries the id of the rule of
    that call, and so does its error; and the errors of the report are the
    errors of the failed results in the order they were returned. *)
Definition stampedByProducer (asserter : Asserter.t) (dragees : list Dragee)
    (s : Store) : Prop :=
  let (calls, _) := handlerCalls dragees (Asserter.rules asserter) s in
  let (report, s') := asserterHandler asserter dragees s in
  map fst calls = Asserter.rules asserter
  /\ Forall (fun call => Forall (stampedBy s' (fst call)) (snd call)) calls
  /\ Report.errors report
     = omap (fun result => RuleResult.error (readResult s' result))
            (concat (map snd calls)).

(** A result that, when it is a failed one, has an error about [root] with
    the message [errorMsg]. *)
Definition blamesRoot (s : Store) (root : Dragee) (errorMsg : string)
    (result : loc) : Prop :=
  RuleResult.pass (readResult s result) = false ->
  exists error,
    RuleResult.error (readResult s result) = Some error
    /\ RuleError.drageeName (readError s error) = name root
    /\ RuleError.message (readError s error) = errorMsg.

(** ** Finding the rule files of a directory *)

(** [file.includes(part)]: [part] occurs somewhere in [file]. *)
Fixpoint includes (file part : string) : bool :=
  if String.prefix part file then true
  else match file with
       | EmptyString => false
       | String _ rest => includes rest part
       end.

(** What the asserter takes from the runtime: the scan of a directory by
    Bun's [Glob] for the pattern [*.rule.ts], as absolute paths in the order
    of the scan, and the default export of the module that [require] loads. *)
Record Runtime : Type := mkRuntime {
  scanSync : string -> list string;
  require : string -> DeclaredRule.t
}.

Definition scanRuleFiles (runtime : Runtime) (dir : string) : list string :=
  scanSync runtime dir.

Definition findRules (generateId : string -> string -> string) (runtime : Runtime)
    (namespace dir : string) : list Rule.t :=
  let files := scanRuleFiles runtime dir in
  map (fun rule => declaredRuleToRule generateId namespace rule)
      (map (fun file => require runtime file) files).

(** [if (!file)] on [string | undefined]: the empty string is falsy too. *)
Definition findRule (generateId : string -> string -> string) (runtime : Runtime)
    (namespace dir ruleName : string) : option Rule.t :=
  let files := scanRuleFiles runtime dir in
  match List.find (fun file => includes file (String.append "/" ruleName)) files with
  | None => None
  | Some file =>
      if String.eqb file EmptyString then None
      else Some (declaredRuleToRule generateId namespace (require runtime file))
  end.

(** [part] occurs in [file]. *)
Definition occursIn (part file : string) : Prop :=
  exists before after, file = String.append before (String.append part after).

(** The asserter restricted to one of its rules. *)
Definition onlyRule (asserter : Asserter.t) (rule : Rule.t) : Asserter.t :=
  {| Asserter.namespace := Asserter.namespace asserter;
     Asserter.rules := [rule];
     Asserter.rule := Asserter.rule asserter |}.

(** An asserter with the same namespace and lookup, and other rules. *)
Definition withRules (asserter : Asserter.t) (rules : list Rule.t) : Asserter.t :=
  {| Asserter.namespace := Asserter.namespace asserter;
     Asserter.rules := rules;
     Asserter.rule := Asserter.rule asserter |}.

(** The error that the asserter reports for a verdict of a rule. *)
Definition reportedError (owned : Rule.t * Verdict) : option RuleError.t :=
  match snd owned with
  | Holds => None
  | Broken dragee message =>
      Some {| RuleError.ruleId := Some (Rule.id (fst owned));
              RuleError.message := message;
              RuleError.drageeName := name dragee |}
  end.

Definition holds (verdict : Verdict) : bool :=
  match verdict with
  | Holds => true
  | Broken _ _ => false
  end.

(** The report of a call, read in the store that the call leaves. *)
Definition valueOf (asserter : Asserter.t) (dragees : list Dragee) (s : Store)
    : ReportValue.t :=
  let (report, s') := asserterHandler asserter dragees s in
  reportValue s' report.

(** A result that is an object of the store, as is its error when it has
    one. *)
Definition existsIn (s : Store) (result : loc) : Prop :=
  result < length (resultObjects s)
  /\ forall error,
       RuleResult.error (readResult s result) = Some error ->
       error < length (errorObjects s).

(** A handler that leaves the result objects that exist as they are, and
    returns results that are objects of the store it leaves. *)
Definition keepsResults (handler : Handler) : Prop :=
  forall dragees s,
    let (results, s') := handler dragees s in
    (exists added, resultObjects s' = resultObjects s ++ added)
    /\ Forall (fun result => result < length (resultObjects s')) results.

(** The rule of the last of the calls that returned [result], if any did. *)
Fixpoint lastReturning (calls : list (Rule.t * list loc)) (result : loc)
    : option Rule.t :=
  match calls with
  | [] => None
  | (rule, results) :: calls =>
      match lastReturning calls result with
      | Some later => Some later
      | None => if decide (result ∈ results) then Some rule else None
      end
  end.

(** No handler call of a run changes the [ruleId] of a result that an
    earlier call returned, and every call returns results that are objects of
    the store it leaves.  The run starts from [s] with the rules still to
    call, [earlier] being the results returned so far. *)
Fixpoint stampsKept (dragees : list Dragee) (rules : list Rule.t)
    (earlier : list loc) (s : Store) : Prop :=
  match rules with
  | [] => True
  | rule :: rules =>
      let (results, s1) := Rule.handler rule dragees s in
      Forall (fun result =>
                RuleResult.ruleId <$> resultObjects s1 !! result
                = RuleResult.ruleId <$> resultObjects s !! result)
             earlier
      /\ Forall (fun result => result < length (resultObjects s1)) results
      /\ stampsKept dragees rules (earlier ++ results)
                    (snd (Array_map (stampRuleId rule) results s1))
  end.

(** The errors of the failed results that the calls returned are objects of
    the store. *)
Definition errorsExist (calls : list (Rule.t * list loc)) (s : Store) : Prop :=
  Forall (fun call =>
            Forall (fun result =>
                      forall error,
                        RuleResult.error (readResult s result) = Some error ->
                        error < length (errorObjects s))
                   (snd call))
         calls.

(** Two results that are one object, or that hold one error object. *)
Definition meet (s : Store) (result1 result2 : loc) : Prop :=
  result1 = result2
  \/ exists error,
       RuleResult.error (readResult s result1) = Some error
       /\ RuleResult.error (readResult s result2) = Some error.

(** Objects are shared between rules of the same id only: when a result of
    one call and a result of another are one object, or hold one error
    object, the rules of the two calls have the same id. *)
Definition sharedWithinIds (calls : list (Rule.t * list loc)) (s : Store) : Prop :=
  forall call1 call2 result1 result2,
    call1 ∈ calls -> call2 ∈ calls ->
    result1 ∈ snd call1 -> result2 ∈ snd call2 ->
    meet s result1 result2 ->
    Rule.id (fst call1) = Rule.id (fst call2).

(** Every result returned by a call carries the id of the rule of that
    call, and so does its error. *)
Definition allStamped (calls : list (Rule.t * list loc)) (s : Store) : Prop :=
  Forall (fun call => Forall (stampedBy s (fst call)) (snd call)) calls.

(** ** Sample inputs *)

Module Samples.
Definition X : Dragee := {| name := "X"; depends_on := None |}.

(** A store with one failed result, and two rules whose handlers both
    return that one object, as handlers that share a constant do. *)
Definition sharedStore : Store :=
  {| resultObjects := [RuleResult.Failed None 0];
     errorObjects := [{| RuleError.ruleId := None;
                         RuleError.message := "cycle detected";
                         RuleError.drageeName := "X" |}] |}.

Definition sharedHandler : Handler := fun _ => ret [0].

Definition first : Rule.t :=
  {| Rule.id := "layering/first"; Rule.label := "first";
     Rule.severity := ERROR; Rule.handler := sharedHandler |}.

Definition second : Rule.t :=
  {| Rule.id := "layering/second"; Rule.label := "second";
     Rule.severity := ERROR; Rule.handler := sharedHandler |}.

Definition sharing : Asserter.t :=
  {| Asserter.namespace := "layering";
     Asserter.rules := [first; second];
     Asserter.rule := fun _ => None |}.

(** A rule that fails for the dragee [X] and passes for the others. *)
Definition noCycleVerdicts (dragees : list Dragee) : list Verdict :=
  map (fun d => if String.eqb (name d) "X" then Broken d "cycle detected" else Holds)
      dragees.

Definition noCycle : Rule.t :=
  {| Rule.id := "layering/no-cycle"; Rule.label := "no-cycle";
     Rule.severity := ERROR;
     Rule.handler := fun dragees => Array_map construct (noCycleVerdicts dragees) |}.

Definition allPass : Rule.t :=
  {| Rule.id := "layering/all-pass"; Rule.label := "all-pass";
     Rule.severity := INFO;
     Rule.handler := fun dragees => Array_map construct (map (fun _ => Holds) dragees) |}.

Definition layering : Asserter.t :=
  {| Asserter.namespace := "layering";
     Asserter.rules := [noCycle; allPass];
     Asserter.rule := fun file =>
       if String.eqb file "no-cycle" then Some noCycle else None |}.

Definition emptyStore : Store := {| resultObjects := []; errorObjects := [] |}.

(** Two dragees of the same name, told apart by their dependencies. *)
Definition A1 : Dragee := {| name := "A"; depends_on := None |}.
Definition A2 : Dragee := {| name := "A"; depends_on := Some [] |}.
Definition B : Dragee := {| name := "B"; depends_on := None |}.
Definition R : Dragee :=
  {| name := "R"; depends_on := Some [("B", "field"); ("Z", "field"); ("A", "method")] |}.

(** The asserter of the shared rules, looking up the first for any name. *)
Definition lookupFirst : Asserter.t :=
  {| Asserter.namespace := "layering";
     Asserter.rules := [first; second];
     Asserter.rule := fun _ => Some first |}.

(** Two rules that share one result, built by the first call that needs it. *)
Definition singletonHandler : Handler :=
  fun _ s =>
    match resultObjects s with
    | [] => let (result, s') := successful s in ([result], s')
    | _ :: _ => ([0], s)
    end.

Definition singletons : Asserter.t :=
  {| Asserter.namespace := "layering";
     Asserter.rules :=
       [{| Rule.id := "layering/first"; Rule.label := "first";
           Rule.severity := ERROR; Rule.handler := singletonHandler |};
        {| Rule.id := "layering/second"; Rule.label := "second";
           Rule.severity := ERROR; Rule.handler := singletonHandler |}];
     Asserter.rule := fun _ => None |}.

(** A rule that returns twice the failed result that the store holds, and an
    asserter that runs it before a rule that builds its results. *)
Definition repeating : Rule.t :=
  {| Rule.id := "layering/repeating"; Rule.label := "repeating";
     Rule.severity := WARN; Rule.handler := fun _ => ret [0; 0] |}.

Definition mixed : Asserter.t :=
  {| Asserter.namespace := "layering";
     Asserter.rules := [repeating; noCycle];
     Asserter.rule := fun _ => None |}.

(** A directory with two rule files, and a stand-in for [generateId]. *)
Definition sampleId (namespace label : string) : string :=
  String.append namespace (String.append "/" label).

Definition declared (label : string) : DeclaredRule.t :=
  {| DeclaredRule.label := label;
     DeclaredRule.severity := ERROR;
     DeclaredRule.handler := fun dragees => Array_map construct (map (fun _ => Holds) dragees);
     DeclaredRule.id := None |}.

Definition runtime : Runtime :=
  {| scanSync := fun dir =>
       if String.eqb dir "/app/rules"
       then ["/app/rules/no-cycle.rule.ts"; "/app/rules/layers.rule.ts"]
       else [];
     require := fun file =>
       if String.eqb file "/app/rules/no-cycle.rule.ts" then declared "no-cycle"
       else declared "layers" |}.
End Samples.

(** * Properties *)

(** ** Facts about [Array.prototype.find] by name *)

Section FindByName.
Implicit Types (key : string) (d : Dragee) (all : list Dragee).

Lemma named_true key d : named key d = true <-> name d = key.
Proof. unfold named. apply String.eqb_eq. Qed.

Lemma named_false key d : named key d = false <-> name d <> key.
Proof. unfold named. apply String.eqb_neq. Qed.

Lemma find_named_head key all :
  List.find (named key) all = head (filter (fun d => name d = key) all).
Proof.
  induction all as [|d all IH]; [reflexivity|].
  cbn [List.find]. rewrite filter_cons.
  destruct (named key d) eqn:E.
  - apply named_true in E. rewrite decide_True by exact E. reflexivity.
  - apply named_false in E. rewrite decide_False by exact E. exact IH.
Qed.

Lemma find_named_first key all d :
  List.find (named key) all = Some d ->
  exists pre post,
    all = pre ++ d :: post /\ name d = key /\ Forall (fun x => name x <> key) pre.
Proof.
  induction all as [|x all IH]; [discriminate|].
  cbn [List.find]. destruct (named key x) eqn:E.
  - intros [= ->]. exists [], all. apply named_true in E. auto.
  - intros H. destruct (IH H) as (pre & post & -> & Hn & Hpre).
    exists (x :: pre), post. apply named_false in E. auto.
Qed.

Lemma find_named_none key all :
  List.find (named key) all = None <-> key ∉ map name all.
Proof.
  induction all as [|x all IH]; cbn [List.find map].
  - split; [intros _; apply not_elem_of_nil | reflexivity].
  - destruct (named key x) eqn:E.
    + apply named_true in E. split; [discriminate|].
      intros H. exfalso. apply H. rewrite E. apply list_elem_of_here.
    + apply named_false in E. rewrite IH, not_elem_of_cons. intuition congruence.
Qed.

Lemma resolved_names all (keys : list string) :
  map name (defined (map (fun key => List.find (named key) all) keys))
  = filter (fun key => key ∈ map name all) keys.
Proof.
  unfold defined. induction keys as [|key keys IH]; [reflexivity|].
  cbn [map omap list_omap]. rewrite filter_cons.
  destruct (List.find (named key) all) as [d|] eqn:E.
  - destruct (find_named_first _ _ _ E) as (pre & post & Hall & Hn & _).
    rewrite decide_True.
    + cbn [map]. rewrite Hn. f_equal. exact IH.
    + rewrite Hall, map_app. cbn [map]. rewrite Hn.
      apply elem_of_app. right. apply list_elem_of_here.
  - apply find_named_none in E. rewrite decide_False by exact E. exact IH.
Qed.

Lemma resolved_members all (keys : list string) :
  Forall (fun d => d ∈ all /\ name d ∈ keys)
         (defined (map (fun key => List.find (named key) all) keys)).
Proof.
  unfold defined. induction keys as [|key keys IH]; [constructor|].
  cbn [map omap list_omap].
  destruct (List.find (named key) all) as [d|] eqn:E; cbn.
  - destruct (find_named_first _ _ _ E) as (pre & post & Hall & Hn & _).
    constructor.
    + split; [|rewrite Hn; apply list_elem_of_here].
      rewrite Hall. apply elem_of_app. right. apply list_elem_of_here.
    + eapply Forall_impl; [exact IH|]. intros x [? ?]. split; [assumption|].
      apply list_elem_of_further. assumption.
  - eapply Forall_impl; [exact IH|]. intros x [? ?]. split; [assumption|].
    apply list_elem_of_further. assumption.
Qed.
End FindByName.

(** ** The two passes over the collected results *)

Section Passes.
Implicit Types (R : list RuleResult.t) (E : list RuleError.t) (results : list loc).

Lemma Array_map_stampRuleId rule results R E :
  Array_map (stampRuleId rule) results (mkStore R E)
  = (results, mkStore (stampAll (Some (Rule.id rule)) results R) E).
Proof.
  revert R. induction results as [|result results IH]; intros R; [reflexivity|].
  cbn [Array_map]. unfold bind at 1. cbn. unfold bind at 1.
  rewrite IH. reflexivity.
Qed.

Lemma Array_map_stampError results R E :
  Array_map stampError results (mkStore R E)
  = (map (fun result => RuleResult.error (R !!! result)) results,
     mkStore R (propagate R results E)).
Proof.
  revert E. induction results as [|result results IH]; intros E; [reflexivity|].
  cbn [Array_map]. unfold bind at 1, stampError at 1, readResult.
  cbn [resultObjects errorObjects].
  assert (Hstep : forall E',
    propagate R (result :: results) E
    = propagate R results
        match R !!! result with
        | RuleResult.Failed ruleId error =>
            alter (RuleError.set_ruleId ruleId) error E
        | RuleResult.Successful _ => E
        end) by reflexivity.
  rewrite (Hstep E). clear Hstep.
  cbn [map].
  destruct (R !!! result) as [ruleId|ruleId error]; unfold bind at 1;
    rewrite IH; reflexivity.
Qed.

(** The errors of the results that are not passing are the errors of all
    the results, a passing result having none. *)
Lemma errors_of_failed (read : loc -> RuleResult.t) results :
  defined (map (fun result => RuleResult.error (read result))
               (List.filter (fun result => negb (RuleResult.pass (read result))) results))
  = omap (fun result => RuleResult.error (read result)) results.
Proof.
  unfold defined. induction results as [|result results IH]; [reflexivity|].
  cbn. destruct (read result) eqn:Hobj; cbn; rewrite ?Hobj; cbn; rewrite IH; reflexivity.
Qed.

Lemma errors_length (read : loc -> RuleResult.t) results :
  length (omap (fun result => RuleResult.error (read result)) results)
  = length (List.filter (fun result => negb (RuleResult.pass (read result))) results).
Proof.
  induction results as [|result results IH]; [reflexivity|].
  cbn. destruct (read result) eqn:Hobj; cbn; rewrite ?Hobj; cbn; rewrite IH; reflexivity.
Qed.

Lemma partition_length (p : loc -> bool) results :
  length (List.filter (fun result => negb (p result)) results)
  + length (List.filter p results) = length results.
Proof.
  induction results as [|result results IH]; [reflexivity|].
  cbn. destruct (p result); cbn; lia.
Qed.

Lemma no_failed_forallb (p : loc -> bool) results :
  Nat.eqb (length (List.filter (fun result => negb (p result)) results)) 0
  = forallb p results.
Proof.
  induction results as [|result results IH]; [reflexivity|].
  cbn. destruct (p result); cbn; [exact IH | reflexivity].
Qed.

Lemma aggregate_eq asserter results R E :
  aggregate asserter results (mkStore R E)
  = (let errors := omap (fun result => RuleResult.error (R !!! result)) results in
     {| Report.pass := Nat.eqb (length errors) 0;
        Report.namespace := Asserter.namespace asserter;
        Report.errors := errors;
        Report.stats :=
          {| errorsCount := length errors;
             passCount := length (List.filter (fun result => RuleResult.pass (R !!! result)) results);
             rulesCount := length (Asserter.rules asserter) |} |},
     mkStore R (propagate R
                  (List.filter (fun result => negb (RuleResult.pass (R !!! result))) results) E)).
Proof.
  unfold aggregate, bind, filterResults, readResult, ret. cbn.
  rewrite Array_map_stampError.
  rewrite (errors_of_failed (fun result => R !!! result)). reflexivity.
Qed.

(** Stamping changes the [ruleId] of result objects and nothing else. *)
Lemma alter_set_ruleId_keeps {B} (g : RuleResult.t -> B) id R i j :
  (forall result, g (RuleResult.set_ruleId id result) = g result) ->
  g (alter (RuleResult.set_ruleId id) i R !!! j) = g (R !!! j).
Proof.
  intros Hg. rewrite !list_lookup_total_alt, list_lookup_alter.
  case_decide; [subst i|reflexivity].
  destruct (R !! j); cbn; [apply Hg | reflexivity].
Qed.

Lemma stampAll_keeps {B} (g : RuleResult.t -> B) id results R j :
  (forall result, g (RuleResult.set_ruleId id result) = g result) ->
  g (stampAll id results R !!! j) = g (R !!! j).
Proof.
  intros Hg. revert R. unfold stampAll.
  induction results as [|result results IH]; intros R; [reflexivity|].
  cbn. rewrite IH. apply alter_set_ruleId_keeps, Hg.
Qed.

Lemma stampAll_pass id results R j :
  RuleResult.pass (stampAll id results R !!! j) = RuleResult.pass (R !!! j).
Proof. apply stampAll_keeps. intros []; reflexivity. Qed.

Lemma stampAll_error id results R j :
  RuleResult.error (stampAll id results R !!! j) = RuleResult.error (R !!! j).
Proof. apply stampAll_keeps. intros []; reflexivity. Qed.

Lemma runRule_eq dragees rule s :
  runRule dragees rule s
  = (fst (Rule.handler rule dragees s),
     mkStore (stampAll (Some (Rule.id rule)) (fst (Rule.handler rule dragees s))
                       (resultObjects (snd (Rule.handler rule dragees s))))
             (errorObjects (snd (Rule.handler rule dragees s)))).
Proof.
  unfold runRule, bind. destruct (Rule.handler rule dragees s) as [results [R E]].
  apply Array_map_stampRuleId.
Qed.
End Passes.

Lemma asserterHandler_eq asserter dragees :
  asserterHandler asserter dragees
  = (do rulesResults <- Array_flatMap (runRule dragees) (Asserter.rules asserter);
     aggregate asserter rulesResults).
Proof. reflexivity. Qed.

Lemma generateReportForRule_eq asserter dragees file rule :
  Asserter.rule asserter file = Some rule ->
  generateReportForRule asserter dragees file
  = (do ruleResults <- runRule dragees rule; aggregate asserter ruleResults).
Proof. intros H. unfold generateReportForRule. rewrite H. reflexivity. Qed.

(** ** Running the rules *)

Lemma aggregate_report asserter results s :
  aggregate asserter results s
  = (let errors := omap (fun result => RuleResult.error (readResult s result)) results in
     {| Report.pass := Nat.eqb (length errors) 0;
        Report.namespace := Asserter.namespace asserter;
        Report.errors := errors;
        Report.stats :=
          {| errorsCount := length errors;
             passCount :=
               length (List.filter (fun result => RuleResult.pass (readResult s result)) results);
             rulesCount := length (Asserter.rules asserter) |} |},
     snd (aggregate asserter results s)).
Proof. destruct s as [R E]. rewrite aggregate_eq. reflexivity. Qed.

Lemma handlerCalls_cons dragees rule rules s :
  handlerCalls dragees (rule :: rules) s
  = (let (results, s1) := runRule dragees rule s in
     let (calls, s2) := handlerCalls dragees rules s1 in
     ((rule, fst (Rule.handler rule dragees s)) :: calls, s2)).
Proof.
  unfold handlerCalls at 1. cbn [Array_map]. fold (handlerCalls dragees rules).
  unfold runRule, bind, ret.
  destruct (Rule.handler rule dragees s) as [results [R E]].
  rewrite Array_map_stampRuleId. reflexivity.
Qed.

(** The results that [asserterHandler] collects are those of the handler
    calls, one call after the other, and the two leave the same store. *)
Lemma flatMap_handlerCalls dragees rules s :
  Array_flatMap (runRule dragees) rules s
  = (concat (map snd (fst (handlerCalls dragees rules s))),
     snd (handlerCalls dragees rules s)).
Proof.
  revert s. induction rules as [|rule rules IH]; intros s; [reflexivity|].
  rewrite handlerCalls_cons. cbn [Array_flatMap]. unfold bind at 1.
  rewrite runRule_eq. unfold bind, ret. rewrite IH.
  destruct (handlerCalls dragees rules _) as [calls s2]. reflexivity.
Qed.

Lemma handlerCalls_rules dragees rules s :
  map fst (fst (handlerCalls dragees rules s)) = rules.
Proof.
  revert s. induction rules as [|rule rules IH]; intros s; [reflexivity|].
  rewrite handlerCalls_cons.
  destruct (runRule dragees rule s) as [results s1].
  specialize (IH s1). destruct (handlerCalls dragees rules s1) as [calls s2].
  cbn in *. rewrite IH. reflexivity.
Qed.

Lemma returnedCount_concat calls :
  returnedCount calls = length (concat (map snd calls)).
Proof.
  unfold returnedCount. induction calls as [|[rule results] calls IH]; [reflexivity|].
  cbn. rewrite length_app, IH. reflexivity.
Qed.

(** * The statements of the specification *)

(** ** Dependencies of a dragee *)

(** C5.  [directDependencies] returns the root it was given.  When the root
    has no [depends_on], the dependencies are empty.  Otherwise they are
    dragees of [allDragees], one for every key of [depends_on] that is the
    name of a dragee of [allDragees], in the order of the keys; the keys that
    name no dragee are left out, and the function is total: it raises
    nothing. *)
Theorem directDependencies_resolves (r : Dragee) (allDragees : list Dragee) :
  root (directDependencies r allDragees) = r
  /\ match depends_on r with
     | None => dependencies (directDependencies r allDragees) = []
     | Some deps =>
         map name (dependencies (directDependencies r allDragees))
         = filter (fun key => key ∈ map name allDragees) (Object_keys deps)
         /\ Forall (fun d => d ∈ allDragees /\ name d ∈ Object_keys deps)
                   (dependencies (directDependencies r allDragees))
     end.
Proof.
  unfold directDependencies. destruct (depends_on r) as [deps|]; cbn [root dependencies].
  - split; [reflexivity|]. split.
    + apply resolved_names.
    + apply resolved_members.
  - split; reflexivity.
Qed.

(** C10.  Every key of [depends_on] is resolved to the first dragee of
    [allDragees] that has this name: the dependencies are the heads of the
    sub-lists of the dragees of each name, every dependency has no dragee of
    its name before it in [allDragees], and a dragee that is not the first
    of its name is not among the dependencies. *)
Theorem directDependencies_first_match (r : Dragee) (allDragees : list Dragee)
    (deps : list (string * DependencyMetadata)) :
  depends_on r = Some deps ->
  dependencies (directDependencies r allDragees)
  = omap (fun key => head (filter (fun d => name d = key) allDragees)) (Object_keys deps)
  /\ Forall (fun d => exists pre post,
                 allDragees = pre ++ d :: post
                 /\ Forall (fun x => name x <> name d) pre)
            (dependencies (directDependencies r allDragees))
  /\ forall later,
       head (filter (fun d => name d = name later) allDragees) <> Some later ->
       later ∉ dependencies (directDependencies r allDragees).
Proof.
  intros Hdeps. unfold directDependencies. rewrite Hdeps. cbn [dependencies].
  assert (Heq : defined (map (fun dependency => List.find (named dependency) allDragees)
                             (Object_keys deps))
                = omap (fun key => head (filter (fun d => name d = key) allDragees))
                       (Object_keys deps)).
  { unfold defined. induction (Object_keys deps) as [|key keys IH]; [reflexivity|].
    cbn [map omap list_omap]. rewrite find_named_head, IH. reflexivity. }
  change (fun dragee => String.eqb (name dragee) ?k) with (named k).
  fold (named). rewrite Heq. split; [reflexivity|].
  assert (Hfirst : forall d,
            d ∈ omap (fun key => head (filter (fun d => name d = key) allDragees))
                     (Object_keys deps) ->
            head (filter (fun x => name x = name d) allDragees) = Some d).
  { intros d Hd. apply list_elem_of_omap in Hd as (key & _ & Hhead).
    assert (name d = key) as ->; [|exact Hhead].
    rewrite <- find_named_head in Hhead.
    apply find_named_first in Hhead as (_ & _ & _ & Hn & _). exact Hn. }
  split.
  - apply Forall_forall. intros d Hd. apply Hfirst in Hd.
    rewrite <- find_named_head in Hd.
    apply find_named_first in Hd as (pre & post & Hall & _ & Hpre). eauto.
  - intros later Hnot Hin. apply Hnot, Hfirst, Hin.
Qed.

(** ** Reports *)

(** C3.  When the asserter has no rule for the file, the report passes, has
    no errors and all its counts are zero, its namespace is that of the
    asserter, and the store is left as it was: no handler has run. *)
Theorem generateReportForRule_not_found (asserter : Asserter.t) (dragees : list Dragee)
    (file : string) (s : Store) :
  Asserter.rule asserter file = None ->
  generateReportForRule asserter dragees file s
  = ({| Report.pass := true;
        Report.namespace := Asserter.namespace asserter;
        Report.errors := [];
        Report.stats := {| rulesCount := 0; passCount := 0; errorsCount := 0 |} |},
     s).
Proof. intros H. unfold generateReportForRule. rewrite H. reflexivity. Qed.

(** C1.  When the asserter has a rule for the file, the report counts all the
    rules of the asserter in [rulesCount], whereas its errors, its counts of
    passed and failed results and its [pass] flag come from the results that
    the handler of this one rule returned. *)
Theorem generateReportForRule_found (asserter : Asserter.t) (dragees : list Dragee)
    (file : string) (rule : Rule.t) (s : Store) :
  Asserter.rule asserter file = Some rule ->
  let (results, s1) := Rule.handler rule dragees s in
  let (report, s2) := generateReportForRule asserter dragees file s in
  rulesCount (Report.stats report) = length (Asserter.rules asserter)
  /\ Report.errors report
     = omap (fun result => RuleResult.error (readResult s1 result)) results
  /\ errorsCount (Report.stats report)
     = length (List.filter (fun result => negb (RuleResult.pass (readResult s1 result))) results)
  /\ passCount (Report.stats report)
     = length (List.filter (fun result => RuleResult.pass (readResult s1 result)) results)
  /\ Report.pass report
     = forallb (fun result => RuleResult.pass (readResult s1 result)) results.
Proof.
  intros Hrule. rewrite (generateReportForRule_eq _ _ _ _ Hrule).
  unfold bind. rewrite runRule_eq.
  destruct (Rule.handler rule dragees s) as [results [R E]]. cbn [fst snd resultObjects errorObjects].
  rewrite aggregate_eq. cbn [Report.stats Report.errors Report.pass rulesCount errorsCount passCount].
  unfold readResult. cbn [resultObjects].
  set (R' := stampAll _ _ R).
  assert (Herr : omap (fun result => RuleResult.error (R' !!! result)) results
                 = omap (fun result => RuleResult.error (R !!! result)) results).
  { apply list_omap_ext, Forall_Forall2_diag, Forall_forall.
    intros result _. apply stampAll_error. }
  assert (Hflt : forall results',
             List.filter (fun result => RuleResult.pass (R' !!! result)) results'
             = List.filter (fun result => RuleResult.pass (R !!! result)) results').
  { intros results'. apply List.filter_ext. intros. apply stampAll_pass. }
  rewrite Herr, Hflt.
  rewrite (errors_length (fun result => R !!! result)).
  rewrite (no_failed_forallb (fun result => RuleResult.pass (R !!! result))).
  auto.
Qed.

(** C2.  In the report of [asserterHandler], the counts of passed and of
    failed results add up to the number of results that the handlers
    returned, over one call of the handler of every rule. *)
Theorem asserterHandler_counts_all_results (asserter : Asserter.t)
    (dragees : list Dragee) (s : Store) :
  let (calls, _) := handlerCalls dragees (Asserter.rules asserter) s in
  let (report, _) := asserterHandler asserter dragees s in
  passCount (Report.stats report) + errorsCount (Report.stats report)
  = returnedCount calls
  /\ map fst calls = Asserter.rules asserter.
Proof.
  pose proof (handlerCalls_rules dragees (Asserter.rules asserter) s) as Hrules.
  rewrite asserterHandler_eq. unfold bind. rewrite flatMap_handlerCalls.
  destruct (handlerCalls dragees (Asserter.rules asserter) s) as [calls s1].
  cbn [fst snd] in *. rewrite aggregate_report.
  cbn [Report.stats passCount errorsCount]. split; [|exact Hrules].
  rewrite returnedCount_concat.
  rewrite (errors_length (readResult s1)).
  rewrite Nat.add_comm.
  apply (partition_length (fun result => RuleResult.pass (readResult s1 result))).
Qed.

(** C6.  A report of [asserterHandler] or of [generateReportForRule] passes
    exactly when it has no errors, and it carries the namespace of the
    asserter. *)
Theorem report_pass_iff_no_errors (asserter : Asserter.t) (dragees : list Dragee)
    (file : string) (s : Store) :
  (let (report, _) := asserterHandler asserter dragees s in
   (Report.pass report = true <-> Report.errors report = [])
   /\ Report.namespace report = Asserter.namespace asserter)
  /\ (let (report, _) := generateReportForRule asserter dragees file s in
      (Report.pass report = true <-> Report.errors report = [])
      /\ Report.namespace report = Asserter.namespace asserter).
Proof.
  assert (Hagg : forall results s1,
            let (report, _) := aggregate asserter results s1 in
            (Report.pass report = true <-> Report.errors report = [])
            /\ Report.namespace report = Asserter.namespace asserter).
  { intros results s1. rewrite aggregate_report. cbn.
    split; [|reflexivity]. rewrite Nat.eqb_eq. apply length_zero_iff_nil. }
  split.
  - rewrite asserterHandler_eq. unfold bind.
    destruct (Array_flatMap _ _ s) as [results s1]. apply Hagg.
  - destruct (Asserter.rule asserter file) as [rule|] eqn:Hrule.
    + rewrite (generateReportForRule_eq _ _ _ _ Hrule). unfold bind.
      destruct (runRule dragees rule s) as [results s1]. apply Hagg.
    + unfold generateReportForRule. rewrite Hrule. cbn.
      split; [split; reflexivity | reflexivity].
Qed.

(** ** Handlers that build their results anew *)

Section Built.
Implicit Types (R O : list RuleResult.t) (E : list RuleError.t).
Implicit Types (verdicts : list (option string * Verdict)).

Lemma builtErrors_app verdicts1 verdicts2 :
  builtErrors (verdicts1 ++ verdicts2) = builtErrors verdicts1 ++ builtErrors verdicts2.
Proof. apply omap_app. Qed.

Lemma builtErrors_unstamped_length verdicts :
  length (builtErrors (map unstamped verdicts)) = length (builtErrors verdicts).
Proof.
  unfold builtErrors. induction verdicts as [|[id [|d m]] verdicts IH]; cbn; auto.
Qed.

Lemma builtResults_app e0 verdicts1 verdicts2 :
  builtResults e0 (verdicts1 ++ verdicts2)
  = builtResults e0 verdicts1
    ++ builtResults (e0 + length (builtErrors verdicts1)) verdicts2.
Proof.
  revert e0. induction verdicts1 as [|[id [|d m]] verdicts1 IH]; intros e0; cbn.
  - rewrite Nat.add_0_r. reflexivity.
  - rewrite IH. reflexivity.
  - rewrite IH. cbn. rewrite Nat.add_succ_r. reflexivity.
Qed.

Lemma builtResults_length e0 verdicts :
  length (builtResults e0 verdicts) = length verdicts.
Proof.
  revert e0. induction verdicts as [|[id [|d m]] verdicts IH]; intros e0; cbn; auto.
Qed.

Lemma builtResults_stamp id e0 (decided : list Verdict) :
  map (RuleResult.set_ruleId id) (builtResults e0 (map (pair None) decided))
  = builtResults e0 (map (pair id) decided).
Proof.
  revert e0. induction decided as [|[|d m] decided IH]; intros e0; cbn;
    rewrite ?IH; reflexivity.
Qed.

(** The references of the failed results, in order, are those of the
    error objects, in order. *)
Lemma builtResults_errors e0 verdicts :
  omap RuleResult.error (builtResults e0 verdicts)
  = seq e0 (length (builtErrors verdicts)).
Proof.
  revert e0. induction verdicts as [|[id [|d m]] verdicts IH]; intros e0; cbn;
    rewrite ?IH; reflexivity.
Qed.

Lemma builtResults_passed e0 verdicts :
  length (List.filter RuleResult.pass (builtResults e0 verdicts))
  = length (List.filter passes verdicts).
Proof.
  revert e0. induction verdicts as [|[id [|d m]] verdicts IH]; intros e0; cbn;
    rewrite ?IH; reflexivity.
Qed.

(** [Array_map construct] puts one result object per verdict at the end of
    the store, and one error object per failure. *)
Lemma construct_all (decided : list Verdict) R E :
  Array_map construct decided (mkStore R E)
  = (seq (length R) (length decided),
     mkStore (R ++ builtResults (length E) (map (pair None) decided))
             (E ++ builtErrors (map (pair None) decided))).
Proof.
  revert R E. induction decided as [|[|d m] decided IH]; intros R E.
  - cbn. rewrite !app_nil_r. reflexivity.
  - cbn [Array_map construct].
    unfold bind, successful, newResult, ret. cbn [resultObjects errorObjects].
    rewrite IH, length_app, Nat.add_1_r, <- app_assoc. reflexivity.
  - cbn [Array_map construct].
    unfold bind, failed, bind, newError, newResult, ret.
    cbn [resultObjects errorObjects].
    rewrite IH, !length_app, !Nat.add_1_r, <- !app_assoc. reflexivity.
Qed.

(** Reading through the references of the objects put last. *)
Lemma read_fresh {A} `{Inhabited A} (old new rest : list A) :
  map (fun i => (old ++ new ++ rest) !!! i) (seq (length old) (length new)) = new.
Proof.
  revert old. induction new as [|x new IH]; intros old; [reflexivity|].
  cbn [length seq map]. f_equal.
  - rewrite lookup_total_app_r by lia. rewrite Nat.sub_diag. reflexivity.
  - specialize (IH (old ++ [x])). rewrite length_app, Nat.add_1_r in IH.
    rewrite <- app_assoc in IH. exact IH.
Qed.

Lemma stampAll_fresh id R O :
  stampAll id (seq (length R) (length O)) (R ++ O)
  = R ++ map (RuleResult.set_ruleId id) O.
Proof.
  unfold stampAll. revert R. induction O as [|o O IH]; intros R; [reflexivity|].
  cbn [length seq foldl map].
  rewrite alter_app_r_alt by lia. rewrite Nat.sub_diag. cbn [alter list_alter].
  specialize (IH (R ++ [RuleResult.set_ruleId id o])).
  rewrite length_app, Nat.add_1_r, <- !app_assoc in IH. exact IH.
Qed.

Lemma runRule_built dragees rule decision R E :
  decides rule decision ->
  runRule dragees rule (mkStore R E)
  = (seq (length R) (length (decision dragees)),
     mkStore (R ++ builtResults (length E)
                     (map (pair (Some (Rule.id rule))) (decision dragees)))
             (E ++ builtErrors (map (pair None) (decision dragees)))).
Proof.
  intros Hdec. unfold runRule, bind. rewrite Hdec, construct_all.
  rewrite Array_map_stampRuleId.
  rewrite <- (builtResults_stamp (Some (Rule.id rule))), <- stampAll_fresh.
  rewrite builtResults_length, length_map. reflexivity.
Qed.

Lemma runRule_owned dragees rule decision R E :
  decides rule decision ->
  let owned := map stampOf (map (pair rule) (decision dragees)) in
  runRule dragees rule (mkStore R E)
  = (seq (length R) (length owned),
     mkStore (R ++ builtResults (length E) owned)
             (E ++ builtErrors (map unstamped owned))).
Proof.
  intros Hdec owned. rewrite (runRule_built _ _ _ _ _ Hdec). subst owned.
  rewrite !length_map, !map_map. reflexivity.
Qed.

Lemma flatMap_built dragees rules decisions R E :
  Forall2 decides rules decisions ->
  let owned := map stampOf (verdictsOf dragees rules decisions) in
  Array_flatMap (runRule dragees) rules (mkStore R E)
  = (seq (length R) (length owned),
     mkStore (R ++ builtResults (length E) owned)
             (E ++ builtErrors (map unstamped owned))).
Proof.
  intros Hdec. revert R E.
  induction Hdec as [|rule decision rules decisions Hd _ IH]; intros R E.
  - cbn. rewrite !app_nil_r. reflexivity.
  - cbn [Array_flatMap verdictsOf]. unfold bind at 1.
    rewrite (runRule_owned _ _ _ _ _ Hd). cbn zeta.
    unfold bind at 1. rewrite IH. cbn zeta. unfold ret.
    set (own1 := map stampOf (map (pair rule) (decision dragees))).
    set (own2 := map stampOf (verdictsOf dragees rules decisions)).
    rewrite map_app. fold own1 own2.
    rewrite map_app, builtErrors_app, builtResults_app, !length_app, seq_app.
    rewrite builtResults_length, builtErrors_unstamped_length, <- !app_assoc.
    reflexivity.
Qed.

Lemma map_filter_reads {A} (read : loc -> A) (p : A -> bool) (results : list loc) :
  map read (List.filter (fun result => p (read result)) results)
  = List.filter p (map read results).
Proof.
  induction results as [|result results IH]; [reflexivity|].
  cbn. destruct (p (read result)); cbn; rewrite IH; reflexivity.
Qed.

Lemma omap_reads {A B} (read : loc -> A) (f : A -> option B) (results : list loc) :
  omap (fun result => f (read result)) results = omap f (map read results).
Proof.
  induction results as [|result results IH]; [reflexivity|].
  cbn. rewrite IH. reflexivity.
Qed.

Lemma propagate_reads R (results : list loc) E :
  propagate R results E = foldl stampInto E (map (fun result => R !!! result) results).
Proof.
  unfold propagate. revert E.
  induction results as [|result results IH]; intros E; [reflexivity|].
  cbn [foldl map]. rewrite IH. reflexivity.
Qed.

(** The second pass writes into every error object the [ruleId] of the
    result that holds it. *)
Lemma stampInto_built E verdicts :
  foldl stampInto (E ++ builtErrors (map unstamped verdicts))
        (List.filter (fun object => negb (RuleResult.pass object))
                     (builtResults (length E) verdicts))
  = E ++ builtErrors verdicts.
Proof.
  revert E. induction verdicts as [|[id [|d m]] verdicts IH]; intros E.
  - reflexivity.
  - cbn. apply IH.
  - cbn [builtResults List.filter RuleResult.pass negb foldl stampInto].
    unfold builtErrors. cbn [map omap list_omap unstamped builtError fst snd].
    fold (builtErrors (map unstamped verdicts)). fold (builtErrors verdicts).
    rewrite alter_app_r_alt by lia. rewrite Nat.sub_diag. cbn [alter list_alter].
    unfold RuleError.set_ruleId at 1. cbn [RuleError.message RuleError.drageeName].
    specialize (IH (E ++ [{| RuleError.ruleId := id; RuleError.message := m;
                             RuleError.drageeName := name d |}])).
    rewrite length_app, Nat.add_1_r, <- !app_assoc in IH. exact IH.
Qed.

Lemma aggregate_built asserter R E verdicts :
  aggregate asserter (seq (length R) (length verdicts))
            (mkStore (R ++ builtResults (length E) verdicts)
                     (E ++ builtErrors (map unstamped verdicts)))
  = ({| Report.pass := Nat.eqb (length (builtErrors verdicts)) 0;
        Report.namespace := Asserter.namespace asserter;
        Report.errors := seq (length E) (length (builtErrors verdicts));
        Report.stats :=
          {| errorsCount := length (builtErrors verdicts);
             passCount := length (List.filter passes verdicts);
             rulesCount := length (Asserter.rules asserter) |} |},
     mkStore (R ++ builtResults (length E) verdicts) (E ++ builtErrors verdicts)).
Proof.
  rewrite aggregate_eq. cbn zeta.
  set (O := builtResults (length E) verdicts).
  assert (Hread : map (fun result : loc => (R ++ O) !!! result)
                      (seq (length R) (length verdicts)) = O).
  { rewrite <- (builtResults_length (length E) verdicts). fold O.
    pose proof (read_fresh R O []) as Hfresh.
    rewrite app_nil_r in Hfresh. exact Hfresh. }
  rewrite (omap_reads (fun result => (R ++ O) !!! result) RuleResult.error).
  rewrite propagate_reads.
  rewrite (map_filter_reads (fun result => (R ++ O) !!! result)
                            (fun object => negb (RuleResult.pass object))).
  rewrite <- (length_map (fun result => (R ++ O) !!! result)
                (List.filter (fun result => RuleResult.pass ((R ++ O) !!! result)) _)).
  rewrite (map_filter_reads (fun result => (R ++ O) !!! result) RuleResult.pass).
  rewrite Hread. subst O.
  rewrite builtResults_errors, builtResults_passed, length_seq, stampInto_built.
  reflexivity.
Qed.

(** The report and the store of [asserterHandler] when every handler
    builds its results anew. *)
Lemma asserterHandler_built asserter dragees decisions R E :
  Forall2 decides (Asserter.rules asserter) decisions ->
  let owned := map stampOf (verdictsOf dragees (Asserter.rules asserter) decisions) in
  asserterHandler asserter dragees (mkStore R E)
  = ({| Report.pass := Nat.eqb (length (builtErrors owned)) 0;
        Report.namespace := Asserter.namespace asserter;
        Report.errors := seq (length E) (length (builtErrors owned));
        Report.stats :=
          {| errorsCount := length (builtErrors owned);
             passCount := length (List.filter passes owned);
             rulesCount := length (Asserter.rules asserter) |} |},
     mkStore (R ++ builtResults (length E) owned) (E ++ builtErrors owned)).
Proof.
  intros Hdec owned. rewrite asserterHandler_eq. unfold bind.
  rewrite (flatMap_built _ _ _ _ _ Hdec). cbn zeta. fold owned.
  apply aggregate_built.
Qed.
End Built.

(** ** What the stamps say once the run is over *)

Section Stamps.
Implicit Types (R : list RuleResult.t) (E : list RuleError.t).

Lemma pure_rules_decided (rules : list Rule.t) :
  Forall pureRule rules -> exists decisions, Forall2 decides rules decisions.
Proof.
  induction 1 as [|rule rules [decision Hd] _ [decisions IH]].
  - exists []. constructor.
  - exists (decision :: decisions). constructor; assumption.
Qed.

(** The object built for a verdict carries the [ruleId] of the verdict,
    and when it is a failed result its error object is the one built for
    the same verdict. *)
Lemma builtResults_lookup E (verdicts : list (option string * Verdict)) i verdict :
  verdicts !! i = Some verdict ->
  exists object,
    builtResults (length E) verdicts !! i = Some object
    /\ RuleResult.ruleId object = fst verdict
    /\ RuleResult.pass object = passes verdict
    /\ forall error,
         RuleResult.error object = Some error ->
         exists errorObject,
           (E ++ builtErrors verdicts) !! error = Some errorObject
           /\ builtError verdict = Some errorObject.
Proof.
  revert E i. induction verdicts as [|[id [|d m]] verdicts IH]; intros E i Hi.
  - discriminate.
  - destruct i as [|i].
    + injection Hi as <-. eexists. repeat split. intros error [=].
    + cbn in Hi. destruct (IH E i Hi) as (object & Hobj & Hrest).
      exists object. split; [exact Hobj | exact Hrest].
  - destruct i as [|i].
    + injection Hi as <-. eexists. repeat split. intros error [= <-].
      eexists. split; [|reflexivity]. apply list_lookup_middle. reflexivity.
    + cbn in Hi.
      specialize (IH (E ++ [{| RuleError.ruleId := id; RuleError.message := m;
                               RuleError.drageeName := name d |}]) i Hi).
      rewrite length_app, Nat.add_1_r, <- app_assoc in IH.
      destruct IH as (object & Hobj & Hrest).
      exists object. split; [exact Hobj | exact Hrest].
Qed.

Lemma lookup_map {A B} (f : A -> B) (l : list A) i :
  map f l !! i = f <$> l !! i.
Proof. exact (list_lookup_fmap f l i). Qed.

Lemma elem_of_concat_2 {A} (x : A) (l : list A) (ls : list (list A)) :
  x ∈ l -> l ∈ ls -> x ∈ concat ls.
Proof.
  intros Hx. induction ls as [|l' ls IH]; intros Hl.
  - apply elem_of_nil in Hl. contradiction.
  - cbn. apply elem_of_app. apply elem_of_cons in Hl as [<-|Hl]; auto.
Qed.

(** Handlers that build their results anew only add objects, and share none. *)
Lemma pure_addsOnly (handler : Handler) : pureHandler handler -> addsOnly handler.
Proof.
  intros [decision Hdec] dragees [R E]. rewrite Hdec, construct_all.
  cbn [resultObjects errorObjects].
  set (verdicts := map (pair None) (decision dragees)).
  split; [eexists; reflexivity|]. split; [rewrite length_app; lia|].
  apply Forall_forall. intros result Hin. apply elem_of_seq in Hin as [Hlo Hhi].
  rewrite length_app, builtResults_length.
  assert (Hlen : length verdicts = length (decision dragees))
    by (subst verdicts; apply length_map).
  split; [lia|].
  assert (Hk : exists k, result = length R + k /\ k < length verdicts)
    by (exists (result - length R); lia).
  destruct Hk as (k & -> & Hk).
  destruct (lookup_lt_is_Some_2 verdicts k Hk) as [verdict Hverdict].
  destruct (builtResults_lookup E _ _ _ Hverdict) as (object & Hobj & _ & _ & Herr).
  unfold readResult. cbn [resultObjects].
  rewrite lookup_total_app_r by lia.
  replace (length R + k - length R) with k by lia.
  rewrite (list_lookup_total_correct _ _ _ Hobj).
  intros error Herror. destruct (Herr error Herror) as (errorObject & Hlook & _).
  apply lookup_lt_Some in Hlook. exact Hlook.
Qed.

Lemma pure_noSharing asserter dragees s :
  Forall pureRule (Asserter.rules asserter) -> noSharing asserter dragees s.
Proof.
  intros Hpure. destruct (pure_rules_decided _ Hpure) as [decisions Hdec].
  unfold noSharing. destruct s as [R E].
  pose proof (flatMap_handlerCalls dragees (Asserter.rules asserter) (mkStore R E)) as Hcalls.
  rewrite (flatMap_built _ _ _ R E Hdec) in Hcalls. cbn zeta in Hcalls.
  destruct (handlerCalls dragees (Asserter.rules asserter) _) as [calls s1].
  cbn [fst snd] in Hcalls. injection Hcalls as <- <-.
  set (owned := map stampOf (verdictsOf dragees (Asserter.rules asserter) decisions)).
  split; [apply NoDup_seq|].
  unfold readResult. cbn [resultObjects].
  rewrite (omap_reads (fun result : loc => (R ++ builtResults (length E) owned) !!! result)
                      RuleResult.error).
  rewrite <- (builtResults_length (length E) owned).
  pose proof (read_fresh R (builtResults (length E) owned) []) as Hread.
  rewrite app_nil_r in Hread.
  replace (map _ (seq (length R) _)) with (builtResults (length E) owned)
    by (symmetry; exact Hread).
  rewrite builtResults_errors. apply NoDup_seq.
Qed.
End Stamps.

(** ** Results that are not shared *)

Section Unshared.
Implicit Types (R : list RuleResult.t) (E : list RuleError.t).

Lemma set_ruleId_twice id (object : RuleResult.t) :
  RuleResult.set_ruleId id (RuleResult.set_ruleId id object)
  = RuleResult.set_ruleId id object.
Proof. destruct object; reflexivity. Qed.

Lemma stampAll_length id (results : list loc) R :
  length (stampAll id results R) = length R.
Proof.
  unfold stampAll. revert R.
  induction results as [|result results IH]; intros R; [reflexivity|].
  cbn [foldl]. rewrite IH. apply length_alter.
Qed.

(** The stamp reaches the results of the list and no other object. *)
Lemma stampAll_lookup id (results : list nat) R (l : nat) :
  stampAll id results R !! l
  = if decide (l ∈ results) then RuleResult.set_ruleId id <$> R !! l else R !! l.
Proof.
  unfold stampAll. revert R.
  induction results as [|result results IH]; intros R; cbn [foldl].
  - rewrite decide_False by apply not_elem_of_nil. reflexivity.
  - rewrite IH. destruct (decide (result = l)) as [->|Hne].
    + rewrite list_lookup_alter_eq.
      rewrite (decide_True (P := l ∈ l :: results)) by apply list_elem_of_here.
      destruct (decide (l ∈ results)); [|reflexivity].
      destruct (R !! l); cbn; [|reflexivity]. rewrite set_ruleId_twice. reflexivity.
    + rewrite list_lookup_alter_ne by exact Hne.
      destruct (decide (l ∈ results)) as [Hin|Hnin].
      * rewrite decide_True by (apply list_elem_of_further; exact Hin). reflexivity.
      * rewrite decide_False; [reflexivity|].
        intros [->|Hin]%elem_of_cons; [apply Hne; reflexivity | apply Hnin, Hin].
Qed.

Lemma stampInto_length E (object : RuleResult.t) :
  length (stampInto E object) = length E.
Proof. destruct object; [reflexivity | apply length_alter]. Qed.

Lemma foldl_stampInto_length (objects : list RuleResult.t) E :
  length (foldl stampInto E objects) = length E.
Proof.
  revert E. induction objects as [|object objects IH]; intros E; [reflexivity|].
  cbn [foldl]. rewrite IH. apply stampInto_length.
Qed.

Lemma foldl_stampInto_failed (objects : list RuleResult.t) E :
  foldl stampInto E
        (List.filter (fun object => negb (RuleResult.pass object)) objects)
  = foldl stampInto E objects.
Proof.
  revert E. induction objects as [|[id|id error] objects IH]; intros E; cbn; auto.
Qed.

(** An error object that no result of the list holds is left as it is. *)
Lemma foldl_stampInto_other (objects : list RuleResult.t) E (error : loc) :
  error ∉ omap RuleResult.error objects ->
  foldl stampInto E objects !! error = E !! error.
Proof.
  revert E. induction objects as [|[id|id held] objects IH]; intros E Hnot;
    [reflexivity | exact (IH E Hnot) |].
  cbn in Hnot. apply not_elem_of_cons in Hnot as [Hne Hnot].
  cbn [foldl stampInto]. rewrite IH by exact Hnot.
  apply list_lookup_alter_ne. congruence.
Qed.

(** An error object held by one result only ends with the [ruleId] of that
    result. *)
Lemma foldl_stampInto_held (objects : list RuleResult.t) E id (error : loc) :
  NoDup (omap RuleResult.error objects) ->
  RuleResult.Failed id error ∈ objects ->
  error < length E ->
  RuleError.ruleId (foldl stampInto E objects !!! error) = id.
Proof.
  revert E. induction objects as [|[id'|id' held] objects IH]; intros E Hnodup Hin Hlt.
  - apply elem_of_nil in Hin. contradiction.
  - apply elem_of_cons in Hin as [Hin|Hin]; [discriminate|]. exact (IH E Hnodup Hin Hlt).
  - cbn in Hnodup. apply NoDup_cons in Hnodup as [Hfresh Hnodup].
    cbn [foldl stampInto].
    apply elem_of_cons in Hin as [Heq|Hin].
    + injection Heq as <- <-.
      destruct (lookup_lt_is_Some_2 E error Hlt) as [errorObject Hobj].
      rewrite (list_lookup_total_correct _ _ (RuleError.set_ruleId id errorObject));
        [reflexivity|].
      rewrite foldl_stampInto_other by exact Hfresh.
      rewrite list_lookup_alter_eq, Hobj. reflexivity.
    + apply IH; [exact Hnodup | exact Hin | rewrite length_alter; exact Hlt].
Qed.

Lemma propagate_all R (results : list loc) E :
  propagate R (List.filter (fun result => negb (RuleResult.pass (R !!! result))) results) E
  = foldl stampInto E (map (fun result => R !!! result) results).
Proof.
  rewrite propagate_reads.
  rewrite (map_filter_reads (fun result => R !!! result)
                            (fun object => negb (RuleResult.pass object))).
  apply foldl_stampInto_failed.
Qed.

(** What holds of the results once all the handlers were called, when the
    handlers only add objects and no result is returned twice. *)
Lemma handlerCalls_stamped dragees rules :
  Forall (fun rule => addsOnly (Rule.handler rule)) rules ->
  forall s,
    let (calls, s1) := handlerCalls dragees rules s in
    NoDup (concat (map snd calls)) ->
    length (resultObjects s) <= length (resultObjects s1)
    /\ length (errorObjects s) <= length (errorObjects s1)
    /\ (forall l : loc,
          l < length (resultObjects s) -> l ∉ concat (map snd calls) ->
          resultObjects s1 !! l = resultObjects s !! l)
    /\ Forall (fun call =>
                 Forall (fun result =>
                           RuleResult.ruleId (readResult s1 result)
                           = Some (Rule.id (fst call))
                           /\ forall error,
                                RuleResult.error (readResult s1 result) = Some error ->
                                error < length (errorObjects s1))
                        (snd call))
              calls.
Proof.
  induction 1 as [|rule rules Hadds _ IH]; intros s.
  - cbn. intros _. repeat split; auto.
  - rewrite handlerCalls_cons, runRule_eq.
    specialize (Hadds dragees s).
    destruct (Rule.handler rule dragees s) as [results [Ra Ea]].
    cbn [fst snd resultObjects errorObjects] in *.
    destruct Hadds as ((added & ->) & HE & Hresults).
    set (Rb := stampAll (Some (Rule.id rule)) results (resultObjects s ++ added)).
    specialize (IH (mkStore Rb Ea)).
    destruct (handlerCalls dragees rules (mkStore Rb Ea)) as [calls [R1 E1]].
    cbn [map snd concat fst resultObjects errorObjects] in *.
    intros Hnodup. apply NoDup_app in Hnodup as (_ & Hdisjoint & Hnodup).
    destruct (IH Hnodup) as (HR1 & HE1 & Hframe & Hcalls). clear IH.
    assert (HRb : length Rb = length (resultObjects s ++ added))
      by apply stampAll_length.
    rewrite length_app in HRb.
    split; [lia|]. split; [lia|]. split.
    + intros l Hl Hnot. apply not_elem_of_app in Hnot as [Hnot1 Hnot2].
      rewrite Hframe by (lia || exact Hnot2).
      subst Rb. rewrite stampAll_lookup, decide_False by exact Hnot1.
      apply lookup_app_l. exact Hl.
    + constructor; [|exact Hcalls]. cbn [fst snd].
      apply Forall_forall. intros result Hin.
      pose proof (proj1 (Forall_forall _ _) Hresults _ Hin) as [Hlt Herror].
      rewrite length_app in Hlt.
      unfold readResult in *. cbn [resultObjects errorObjects] in *.
      destruct (lookup_lt_is_Some_2 (resultObjects s ++ added) result) as [object Hobj];
        [rewrite length_app; exact Hlt|].
      assert (Hread : R1 !!! result = RuleResult.set_ruleId (Some (Rule.id rule)) object).
      { apply list_lookup_total_correct.
        rewrite Hframe by (lia || apply Hdisjoint, Hin).
        subst Rb. rewrite stampAll_lookup, decide_True by exact Hin.
        rewrite Hobj. reflexivity. }
      rewrite Hread. rewrite (list_lookup_total_correct _ _ _ Hobj) in Herror.
      split; [destruct object; reflexivity|].
      intros error Heq. assert (error < length Ea); [|lia].
      apply Herror. destruct object; exact Heq.
Qed.
End Unshared.

(** ** Stamps *)

(** C4, as it is stated, fails when two rules return the same object: the
    stamp of the second rule replaces that of the first. *)
Lemma shared_result_keeps_last_stamp :
  ~ stampedByProducer Samples.sharing [] Samples.sharedStore.
Proof.
  unfold stampedByProducer. cbn.
  intros (_ & Hstamped & _).
  apply Forall_cons in Hstamped as [Hfirst _].
  apply Forall_cons in Hfirst as [[Hid _] _].
  cbn in Hid. discriminate Hid.
Qed.

(** ** Calling [asserterHandler] twice *)

(** The value of the report is decided by the verdicts; its errors are
    objects of the store that is returned, and the objects that were in the
    store before are still there. *)
Lemma asserterHandler_value asserter dragees decisions s :
  Forall2 decides (Asserter.rules asserter) decisions ->
  let (report, s') := asserterHandler asserter dragees s in
  reportValue s' report
  = reportOf asserter
             (map stampOf (verdictsOf dragees (Asserter.rules asserter) decisions))
  /\ Forall (fun error => error < length (errorObjects s')) (Report.errors report)
  /\ exists rest, errorObjects s' = errorObjects s ++ rest.
Proof.
  intros Hdec. destruct s as [R E].
  rewrite (asserterHandler_built _ dragees _ R E Hdec). cbn zeta.
  set (owned := map stampOf (verdictsOf dragees (Asserter.rules asserter) decisions)).
  split; [|split].
  - unfold reportValue, reportOf, readError.
    cbn [Report.pass Report.namespace Report.errors Report.stats errorObjects].
    f_equal.
    pose proof (read_fresh E (builtErrors owned) []) as Hread.
    rewrite app_nil_r in Hread. exact Hread.
  - cbn [Report.errors errorObjects]. apply Forall_forall. intros error Hin.
    apply elem_of_seq in Hin. rewrite length_app. lia.
  - cbn [errorObjects]. eexists. reflexivity.
Qed.

(** C7.  For an asserter whose handlers are pure functions of the dragees,
    two calls of [asserterHandler] in a row on the same dragees give reports
    of the same value, each read when it is returned; and the second call
    leaves the value of the first report as it was. *)
Theorem asserterHandler_twice (asserter : Asserter.t) (dragees : list Dragee)
    (s : Store) :
  Forall pureRule (Asserter.rules asserter) ->
  let (report1, s1) := asserterHandler asserter dragees s in
  let (report2, s2) := asserterHandler asserter dragees s1 in
  reportValue s2 report2 = reportValue s1 report1
  /\ reportValue s2 report1 = reportValue s1 report1.
Proof.
  intros Hpure. destruct (pure_rules_decided _ Hpure) as [decisions Hdec].
  pose proof (asserterHandler_value asserter dragees decisions s Hdec) as Hfirst.
  destruct s as [R E].
  destruct (asserterHandler asserter dragees (mkStore R E)) as [report1 [R1 E1]].
  destruct Hfirst as (Hvalue1 & Hlast1 & rest1 & Hrest1).
  pose proof (asserterHandler_value asserter dragees decisions (mkStore R1 E1) Hdec)
    as Hsecond.
  destruct (asserterHandler asserter dragees (mkStore R1 E1)) as [report2 [R2 E2]].
  destruct Hsecond as (Hvalue2 & _ & rest2 & Hrest2).
  split; [congruence|].
  unfold reportValue. f_equal. apply map_ext_Forall.
  eapply Forall_impl; [exact Hlast1|]. intros error Herror.
  unfold readError in *. cbn [errorObjects] in *.
  rewrite Hrest2. apply lookup_total_app_l. exact Herror.
Qed.

Lemma asserterHandler_twice_witness :
  let (report1, s1) :=
    asserterHandler Samples.layering [Samples.X; Samples.B] Samples.emptyStore in
  let (report2, s2) := asserterHandler Samples.layering [Samples.X; Samples.B] s1 in
  reportValue s2 report2 = reportValue s1 report1
  /\ reportValue s2 report1 = reportValue s1 report1.
Proof.
  apply (asserterHandler_twice Samples.layering [Samples.X; Samples.B] Samples.emptyStore).
  repeat constructor.
  - exists Samples.noCycleVerdicts. reflexivity.
  - exists (fun dragees => map (fun _ => Holds) dragees). reflexivity.
Defined.

(** ** The helpers for rule authors *)

Section Helpers.
Implicit Types (R : list RuleResult.t) (E : list RuleError.t).

Lemma Array_map_ext {A B} (f g : A -> M B) (xs : list A) s :
  (forall x s, f x s = g x s) -> Array_map f xs s = Array_map g xs s.
Proof.
  intros Hfg. revert s. induction xs as [|x xs IH]; intros s; [reflexivity|].
  cbn [Array_map]. unfold bind. rewrite Hfg.
  destruct (g x s) as [y s1]. rewrite IH. reflexivity.
Qed.

Lemma Array_map_map {A B C} (f : B -> M C) (g : A -> B) (xs : list A) s :
  Array_map f (map g xs) s = Array_map (fun x => f (g x)) xs s.
Proof.
  revert s. induction xs as [|x xs IH]; intros s; [reflexivity|].
  cbn [Array_map map]. unfold bind.
  destruct (f (g x) s) as [y s1]. rewrite IH. reflexivity.
Qed.

Lemma multipleExpectDragees_constructs root dragees errorMsg evalFn s :
  multipleExpectDragees root dragees errorMsg evalFn s
  = Array_map construct (map (verdictFor root errorMsg evalFn) dragees) s.
Proof.
  unfold multipleExpectDragees. rewrite Array_map_map. apply Array_map_ext.
  intros d s1. unfold verdictFor. destruct (evalFn d); reflexivity.
Qed.

Lemma builtResults_pass e0 (verdicts : list (option string * Verdict)) :
  map RuleResult.pass (builtResults e0 verdicts) = map passes verdicts.
Proof.
  revert e0. induction verdicts as [|[id [|d m]] verdicts IH]; intros e0; cbn;
    rewrite ?IH; reflexivity.
Qed.

Lemma successful_passes s :
  let (result, s') := successful s in
  RuleResult.pass (readResult s' result) = true.
Proof.
  destruct s as [R E]. unfold successful, newResult, readResult.
  cbn [resultObjects]. rewrite list_lookup_total_middle; reflexivity.
Qed.

Lemma failed_blames root errorMsg s :
  let (result, s') := failed root errorMsg s in
  RuleResult.pass (readResult s' result) = false
  /\ blamesRoot s' root errorMsg result.
Proof.
  destruct s as [R E].
  unfold failed, bind, newError, newResult, blamesRoot, readResult, readError.
  cbn [resultObjects errorObjects].
  rewrite list_lookup_total_middle by reflexivity. cbn.
  split; [reflexivity|]. intros _. exists (length E). split; [reflexivity|].
  rewrite list_lookup_total_middle by reflexivity. split; reflexivity.
Qed.

Lemma passing_blames s root errorMsg result :
  RuleResult.pass (readResult s result) = true -> blamesRoot s root errorMsg result.
Proof. unfold blamesRoot. intros ->. discriminate. Qed.
End Helpers.

(** C9.  A failed result built by [failed], [expectDragee], [expectDragees]
    or [multipleExpectDragees] has an error whose [drageeName] is the name of
    the root given as first argument, whatever the dragees that were
    evaluated, and whose [message] is the message given.  A result is a
    failed one exactly when the evaluation function answers false. *)
Theorem failed_results_blame_root (root dragee : Dragee)
    (dependancies dragees : list Dragee) (errorMsg : string)
    (evalFn : Dragee -> bool) (evalAll : list Dragee -> bool) (s : Store) :
  (let (result, s') := failed root errorMsg s in
   RuleResult.pass (readResult s' result) = false
   /\ blamesRoot s' root errorMsg result)
  /\ (let (result, s') := expectDragee root dragee errorMsg evalFn s in
      RuleResult.pass (readResult s' result) = evalFn dragee
      /\ blamesRoot s' root errorMsg result)
  /\ (let (result, s') := expectDragees root dependancies errorMsg evalAll s in
      RuleResult.pass (readResult s' result) = evalAll dependancies
      /\ blamesRoot s' root errorMsg result)
  /\ (let (results, s') := multipleExpectDragees root dragees errorMsg evalFn s in
      map (fun result => RuleResult.pass (readResult s' result)) results
      = map evalFn dragees
      /\ Forall (blamesRoot s' root errorMsg) results).
Proof.
  assert (Hone : forall b : bool,
            let (result, s') := (if b then successful else failed root errorMsg) s in
            RuleResult.pass (readResult s' result) = b
            /\ blamesRoot s' root errorMsg result).
  { intros [|].
    - pose proof (successful_passes s) as H. destruct (successful s) as [result s'].
      split; [exact H | apply passing_blames, H].
    - apply failed_blames. }
  split; [apply failed_blames|].
  split; [exact (Hone (evalFn dragee))|].
  split; [exact (Hone (evalAll dependancies))|].
  rewrite multipleExpectDragees_constructs. destruct s as [R E].
  rewrite construct_all.
  set (decided := map _ dragees).
  set (verdicts := map (pair None) decided).
  assert (Hpasses : map passes verdicts = map evalFn dragees).
  { subst verdicts decided. rewrite !map_map. apply map_ext.
    intros d. unfold passes, verdictFor. cbn. destruct (evalFn d); reflexivity. }
  assert (Hlen : length decided = length verdicts)
    by (subst verdicts; rewrite length_map; reflexivity).
  split.
  - unfold readResult. cbn [resultObjects].
    rewrite <- (map_map (fun result : loc => (R ++ builtResults (length E) verdicts) !!! result)
                        RuleResult.pass).
    rewrite Hlen, <- (builtResults_length (length E) verdicts).
    pose proof (read_fresh R (builtResults (length E) verdicts) []) as Hread.
    rewrite app_nil_r in Hread.
    transitivity (map RuleResult.pass (builtResults (length E) verdicts)).
    + f_equal. exact Hread.
    + rewrite builtResults_pass. exact Hpasses.
  - apply Forall_forall. intros result Hin.
    apply elem_of_seq in Hin as [Hlo Hhi].
    assert (Hk : exists k, result = length R + k /\ k < length verdicts)
      by (exists (result - length R); lia).
    destruct Hk as (k & -> & Hk). clear Hlo Hhi.
    destruct (lookup_lt_is_Some_2 verdicts k Hk) as [verdict Hverdict].
    destruct (builtResults_lookup E _ _ _ Hverdict)
      as (object & Hobj & _ & _ & Herr).
    unfold blamesRoot, readResult, readError. cbn [resultObjects errorObjects].
    rewrite lookup_total_app_r by lia.
    replace (length R + k - length R) with k by lia.
    rewrite (list_lookup_total_correct _ _ _ Hobj).
    intros Hfail. destruct object as [id|id error]; [discriminate|].
    exists error. split; [reflexivity|].
    destruct (Herr error eq_refl) as (errorObject & Hlook & Hbuilt).
    rewrite (list_lookup_total_correct _ _ _ Hlook).
    subst verdicts decided. rewrite !lookup_map in Hverdict.
    destruct (dragees !! k) as [d|]; [|discriminate].
    injection Hverdict as <-. unfold builtError, verdictFor in Hbuilt.
    cbn [fst snd] in Hbuilt.
    destruct (evalFn d); [discriminate|]. injection Hbuilt as <-.
    split; reflexivity.
Qed.

(** * Runs on the sample inputs *)

Example layering_report :
  (let (report, s) :=
     asserterHandler Samples.layering [Samples.X; Samples.B] Samples.emptyStore in
   reportValue s report)
  = {| ReportValue.pass := false;
       ReportValue.namespace := "layering";
       ReportValue.errors :=
         [{| RuleError.ruleId := Some "layering/no-cycle";
             RuleError.message := "cycle detected";
             RuleError.drageeName := "X" |}];
       ReportValue.stats := {| rulesCount := 2; passCount := 3; errorsCount := 1 |} |}.
Proof. reflexivity. Qed.

Example sharing_report :
  (let (report, s) := asserterHandler Samples.sharing [] Samples.sharedStore in
   (Report.errors report, reportValue s report))
  = ([0; 0],
     {| ReportValue.pass := false;
        ReportValue.namespace := "layering";
        ReportValue.errors :=
          [{| RuleError.ruleId := Some "layering/second";
              RuleError.message := "cycle detected";
              RuleError.drageeName := "X" |};
           {| RuleError.ruleId := Some "layering/second";
              RuleError.message := "cycle detected";
              RuleError.drageeName := "X" |}];
        ReportValue.stats := {| rulesCount := 2; passCount := 0; errorsCount := 2 |} |}).
Proof. reflexivity. Qed.

Example dependencies_of_R :
  directDependencies Samples.R [Samples.A1; Samples.B; Samples.A2]
  = {| root := Samples.R; dependencies := [Samples.B; Samples.A1] |}.
Proof. reflexivity. Qed.

Example blamed_root :
  (let (results, s) :=
     multipleExpectDragees Samples.R [Samples.A1; Samples.B] "must not depend on B"
       (fun d => negb (String.eqb (name d) "B")) Samples.emptyStore in
   (results, s))
  = ([0; 1],
     {| resultObjects := [RuleResult.Successful None; RuleResult.Failed None 0];
        errorObjects := [{| RuleError.ruleId := None;
                            RuleError.message := "must not depend on B";
                            RuleError.drageeName := "R" |}] |}).
Proof. reflexivity. Qed.

(** * The statements at sample inputs *)

Lemma directDependencies_first_match_witness :
  dependencies (directDependencies Samples.R [Samples.A1; Samples.B; Samples.A2])
  = [Samples.B; Samples.A1]
  /\ Samples.A2 ∉ dependencies
                    (directDependencies Samples.R [Samples.A1; Samples.B; Samples.A2]).
Proof.
  destruct (directDependencies_first_match
              Samples.R [Samples.A1; Samples.B; Samples.A2] _ eq_refl)
    as (Heq & _ & Hlater).
  split.
  - rewrite Heq. reflexivity.
  - apply Hlater. cbn. discriminate.
Defined.

Lemma generateReportForRule_not_found_witness :
  generateReportForRule Samples.layering [Samples.X] "missing" Samples.emptyStore
  = ({| Report.pass := true;
        Report.namespace := "layering";
        Report.errors := [];
        Report.stats := {| rulesCount := 0; passCount := 0; errorsCount := 0 |} |},
     Samples.emptyStore).
Proof.
  exact (generateReportForRule_not_found
           Samples.layering [Samples.X] "missing" Samples.emptyStore eq_refl).
Defined.

(** One rule is run, and the report counts the two rules of the asserter. *)
Lemma generateReportForRule_found_witness :
  let report :=
    fst (generateReportForRule Samples.layering [Samples.X; Samples.B] "no-cycle"
                               Samples.emptyStore) in
  rulesCount (Report.stats report) = 2
  /\ Report.errors report = [0]
  /\ errorsCount (Report.stats report) = 1
  /\ passCount (Report.stats report) = 1
  /\ Report.pass report = false.
Proof.
  exact (generateReportForRule_found
           Samples.layering [Samples.X; Samples.B] "no-cycle" Samples.noCycle
           Samples.emptyStore eq_refl).
Defined.

(** * Further properties *)

(** ** Finding rules by name *)

Section Includes.
Implicit Types (file part : string).

Lemma append_cons c (before after : string) :
  String.append (String c before) after = String c (String.append before after).
Proof. reflexivity. Qed.

Lemma append_empty (after : string) : String.append EmptyString after = after.
Proof. reflexivity. Qed.

Lemma append_append (a b c : string) :
  String.append (String.append a b) c = String.append a (String.append b c).
Proof.
  induction a as [|x a IH]; [reflexivity|].
  rewrite !append_cons, IH. reflexivity.
Qed.

Lemma prefix_append part file :
  String.prefix part file = true <-> exists after, file = String.append part after.
Proof.
  revert part. induction file as [|c file IH]; intros [|a part]; cbn.
  - split; [exists EmptyString; reflexivity | reflexivity].
  - split; [discriminate | intros [after [=]]].
  - split; [exists (String c file); reflexivity | reflexivity].
  - destruct (Ascii.ascii_dec a c) as [->|Hne].
    + rewrite IH. split; intros [after Hafter]; exists after.
      * rewrite append_cons. f_equal. exact Hafter.
      * rewrite append_cons in Hafter. injection Hafter as ->. reflexivity.
    + split; [discriminate|]. intros [after Hafter]. rewrite append_cons in Hafter.
      injection Hafter as Hac _. congruence.
Qed.

Lemma includes_occursIn file part :
  includes file part = true <-> occursIn part file.
Proof.
  unfold occursIn. induction file as [|c file IH]; cbn [includes].
  - destruct (String.prefix part EmptyString) eqn:Hprefix.
    + split; [intros _|reflexivity]. apply prefix_append in Hprefix as [after Hafter].
      exists EmptyString, after. exact Hafter.
    + split; [discriminate|]. intros (before & after & Heq).
      destruct before; [|discriminate]. rewrite append_empty in Heq.
      assert (String.prefix part EmptyString = true)
        by (apply prefix_append; exists after; exact Heq).
      congruence.
  - destruct (String.prefix part (String c file)) eqn:Hprefix.
    + split; [intros _|reflexivity]. apply prefix_append in Hprefix as [after Hafter].
      exists EmptyString, after. exact Hafter.
    + rewrite IH. split.
      * intros (before & after & ->). exists (String c before), after. reflexivity.
      * intros (before & after & Heq). destruct before as [|b before].
        -- rewrite append_empty in Heq.
           assert (String.prefix part (String c file) = true)
             by (apply prefix_append; exists after; exact Heq).
           congruence.
        -- rewrite append_cons in Heq. injection Heq as _ ->.
           exists before, after. reflexivity.
Qed.

Lemma occursIn_nonempty part file :
  occursIn (String.append "/" part) file -> file <> EmptyString.
Proof.
  intros (before & after & ->). destruct before; discriminate.
Qed.

Lemma find_first {A} (p : A -> bool) (l : list A) (x : A) :
  List.find p l = Some x ->
  exists before after,
    l = before ++ x :: after /\ p x = true /\ Forall (fun y => p y = false) before.
Proof.
  induction l as [|y l IH]; [discriminate|].
  cbn [List.find]. destruct (p y) eqn:Hy.
  - intros [= ->]. exists [], l. auto.
  - intros Hfind. destruct (IH Hfind) as (before & after & -> & Hx & Hbefore).
    exists (y :: before), after. auto.
Qed.

Lemma find_nothing {A} (p : A -> bool) (l : list A) :
  List.find p l = None <-> Forall (fun y => p y = false) l.
Proof.
  induction l as [|y l IH]; cbn [List.find].
  - split; [constructor | reflexivity].
  - destruct (p y) eqn:Hy.
    + split; [discriminate|]. intros H. apply Forall_cons in H as [H _]. congruence.
    + rewrite IH. split; [intros H; constructor; assumption|].
      intros H. apply Forall_cons in H as [_ H]. exact H.
Qed.

Lemma includes_false file part :
  includes file part = false <-> ~ occursIn part file.
Proof.
  rewrite <- includes_occursIn. destruct (includes file part); split; congruence.
Qed.
End Includes.

(** X1.  [findRule] looks the name up by substring, in the order of the scan:
    it finds nothing exactly when no scanned path contains a slash followed
    by the name, and otherwise it returns the converted rule of the first
    scanned path that does. *)
Theorem findRule_first_containing (generateId : string -> string -> string)
    (runtime : Runtime) (namespace dir ruleName : string) :
  (findRule generateId runtime namespace dir ruleName = None
   <-> Forall (fun file => ~ occursIn (String.append "/" ruleName) file)
              (scanSync runtime dir))
  /\ forall rule,
       findRule generateId runtime namespace dir ruleName = Some rule ->
       exists before file after,
         scanSync runtime dir = before ++ file :: after
         /\ occursIn (String.append "/" ruleName) file
         /\ Forall (fun other => ~ occursIn (String.append "/" ruleName) other) before
         /\ rule = declaredRuleToRule generateId namespace (require runtime file).
Proof.
  unfold findRule, scanRuleFiles.
  destruct (List.find _ (scanSync runtime dir)) as [file|] eqn:Hfind.
  - destruct (find_first _ _ _ Hfind) as (before & after & Hscan & Hfile & Hbefore).
    apply includes_occursIn in Hfile.
    pose proof (occursIn_nonempty _ _ Hfile) as Hne.
    apply String.eqb_neq in Hne. rewrite Hne. split.
    + split; [discriminate|]. intros Hnone. exfalso.
      rewrite Hscan in Hnone. apply Forall_app in Hnone as [_ Hnone].
      apply Forall_cons in Hnone as [Hnone _]. exact (Hnone Hfile).
    + intros rule [= <-]. exists before, file, after.
      repeat split; try assumption.
      eapply Forall_impl; [exact Hbefore|]. intros other. apply includes_false.
  - split; [|discriminate]. split; [intros _|reflexivity].
    apply find_nothing in Hfind.
    eapply Forall_impl; [exact Hfind|]. intros other. apply includes_false.
Qed.

(** X2.  A rule that [findRule] finds is one of the rules that [findRules]
    lists for the same namespace and directory. *)
Theorem findRule_among_findRules (generateId : string -> string -> string)
    (runtime : Runtime) (namespace dir ruleName : string) (rule : Rule.t) :
  findRule generateId runtime namespace dir ruleName = Some rule ->
  rule ∈ findRules generateId runtime namespace dir.
Proof.
  unfold findRule, findRules, scanRuleFiles.
  destruct (List.find _ (scanSync runtime dir)) as [file|] eqn:Hfind; [|discriminate].
  destruct (String.eqb file EmptyString); [discriminate|]. intros [= <-].
  destruct (find_first _ _ _ Hfind) as (before & after & -> & _ & _).
  rewrite !map_app. cbn [map]. apply elem_of_app. right. apply list_elem_of_here.
Qed.

(** X3.  The lookup does not tell a file name from a directory name: when the
    slash and the name already occur in the directory that every scanned path
    starts with, as the empty name does in any absolute directory,
    [findRule] returns the rule of the first scanned file, whatever its
    name. *)
Theorem findRule_directory_segment (generateId : string -> string -> string)
    (runtime : Runtime) (namespace dir ruleName file : string) (others : list string) :
  scanSync runtime dir = file :: others ->
  (exists rest, file = String.append dir rest) ->
  occursIn (String.append "/" ruleName) dir ->
  findRule generateId runtime namespace dir ruleName
  = Some (declaredRuleToRule generateId namespace (require runtime file)).
Proof.
  intros Hscan [rest ->] (before & after & Hdir).
  assert (Hoccurs : occursIn (String.append "/" ruleName) (String.append dir rest)).
  { exists before, (String.append after rest). rewrite Hdir.
    clear. rewrite !append_append. reflexivity. }
  unfold findRule, scanRuleFiles. rewrite Hscan. cbn [List.find].
  rewrite (proj2 (includes_occursIn _ _) Hoccurs).
  apply occursIn_nonempty, String.eqb_neq in Hoccurs. rewrite Hoccurs. reflexivity.
Qed.

Lemma findRule_among_findRules_witness :
  exists rule,
    findRule Samples.sampleId Samples.runtime "layering" "/app/rules" "layers" = Some rule
    /\ Rule.id rule = "layering/layers"
    /\ rule ∈ findRules Samples.sampleId Samples.runtime "layering" "/app/rules".
Proof.
  eexists. split; [reflexivity|]. split; [reflexivity|].
  apply (findRule_among_findRules Samples.sampleId Samples.runtime
           "layering" "/app/rules" "layers").
  reflexivity.
Defined.

Lemma findRule_directory_segment_witness :
  Rule.label <$> findRule Samples.sampleId Samples.runtime "layering" "/app/rules" "rules"
  = Some "no-cycle"
  /\ Rule.label <$> findRule Samples.sampleId Samples.runtime "layering" "/app/rules" EmptyString
     = Some "no-cycle".
Proof.
  split.
  - rewrite (findRule_directory_segment Samples.sampleId Samples.runtime
               "layering" "/app/rules" "rules" "/app/rules/no-cycle.rule.ts"
               ["/app/rules/layers.rule.ts"] eq_refl).
    + reflexivity.
    + exists "/no-cycle.rule.ts". reflexivity.
    + exists "/app", EmptyString. reflexivity.
  - rewrite (findRule_directory_segment Samples.sampleId Samples.runtime
               "layering" "/app/rules" EmptyString "/app/rules/no-cycle.rule.ts"
               ["/app/rules/layers.rule.ts"] eq_refl).
    + reflexivity.
    + exists "/no-cycle.rule.ts". reflexivity.
    + exists EmptyString, "app/rules". reflexivity.
Defined.

(** ** More on the dependencies of a dragee *)

Section MoreDependencies.
Implicit Types (key : string) (d : Dragee) (all : list Dragee).

Lemma filter_all_length {A} (P : A -> Prop) `{forall x, Decision (P x)} (l : list A) :
  length (filter P l) = length l <-> Forall P l.
Proof.
  induction l as [|x l IH]; [split; [constructor | reflexivity]|].
  rewrite filter_cons. pose proof (length_filter P l) as Hle.
  destruct (decide (P x)) as [HP|HP]; cbn [length].
  - split.
    + intros [= Hlen]. constructor; [exact HP | apply IH, Hlen].
    + intros Hall. apply Forall_cons in Hall as [_ Hall]. f_equal. apply IH, Hall.
  - split; [lia|]. intros Hall. apply Forall_cons in Hall as [Hx _]. contradiction.
Qed.

(** With names that are all different, [find] by name does not depend on
    the order of the dragees. *)
Lemma find_named_unique key all d :
  NoDup (map name all) ->
  List.find (named key) all = Some d <-> d ∈ all /\ name d = key.
Proof.
  intros Hnodup. split.
  - intros Hfind. apply find_named_first in Hfind as (pre & post & -> & Hname & _).
    split; [|exact Hname]. apply elem_of_app. right. apply list_elem_of_here.
  - intros [Hin Hname]. induction all as [|x all IH]; [apply elem_of_nil in Hin; contradiction|].
    cbn [map] in Hnodup. apply NoDup_cons in Hnodup as [Hfresh Hnodup].
    cbn [List.find]. apply elem_of_cons in Hin as [->|Hin].
    + rewrite (proj2 (named_true key x) Hname). reflexivity.
    + destruct (named key x) eqn:Hx; [|exact (IH Hnodup Hin)].
      apply named_true in Hx. exfalso. apply Hfresh. rewrite Hx, <- Hname.
      apply (list_elem_of_fmap_2 name), Hin.
Qed.

Lemma find_named_permutation key all all' :
  NoDup (map name all) -> all ≡ₚ all' ->
  List.find (named key) all = List.find (named key) all'.
Proof.
  intros Hnodup Hperm.
  assert (Hnodup' : NoDup (map name all')).
  { change (NoDup (name <$> all')). rewrite <- Hperm. exact Hnodup. }
  destruct (List.find (named key) all) as [d|] eqn:Hfind.
  - apply (find_named_unique _ _ _ Hnodup) in Hfind as [Hin Hname].
    symmetry. apply (find_named_unique _ _ _ Hnodup'). split; [|exact Hname].
    rewrite <- Hperm. exact Hin.
  - destruct (List.find (named key) all') as [d'|] eqn:Hfind'; [|reflexivity].
    apply (find_named_unique _ _ _ Hnodup') in Hfind' as [Hin Hname].
    rewrite <- Hperm in Hin.
    assert (Hsome : List.find (named key) all = Some d')
      by (apply (find_named_unique _ _ _ Hnodup); auto).
    congruence.
Qed.
End MoreDependencies.

(** X4.  [directDependencies] never returns more dependencies than
    [depends_on] has keys, and it returns as many exactly when every key is
    the name of a dragee of [allDragees]. *)
Theorem directDependencies_count (r : Dragee) (allDragees : list Dragee)
    (deps : list (string * DependencyMetadata)) :
  depends_on r = Some deps ->
  length (dependencies (directDependencies r allDragees)) <= length deps
  /\ (length (dependencies (directDependencies r allDragees)) = length deps
      <-> Forall (fun key => key ∈ map name allDragees) (Object_keys deps)).
Proof.
  intros Hdeps. unfold directDependencies. rewrite Hdeps. cbn [dependencies].
  pose proof (resolved_names allDragees (Object_keys deps)) as Hnames.
  apply (f_equal length) in Hnames. rewrite length_map in Hnames.
  fold (named). change (fun dragee => String.eqb (name dragee) ?k) with (named k).
  assert (Hkeys : length (Object_keys deps) = length deps)
    by (unfold Object_keys; apply length_map).
  rewrite Hnames, <- Hkeys. split.
  - apply length_filter.
  - apply filter_all_length.
Qed.

(** X5.  When the dragees of [allDragees] have names that are all different,
    the order of [allDragees] does not matter to [directDependencies]. *)
Theorem directDependencies_any_order (r : Dragee) (allDragees reordered : list Dragee) :
  NoDup (map name allDragees) ->
  allDragees ≡ₚ reordered ->
  directDependencies r allDragees = directDependencies r reordered.
Proof.
  intros Hnodup Hperm. unfold directDependencies.
  destruct (depends_on r) as [deps|]; [|reflexivity].
  f_equal. f_equal. apply map_ext. intros key.
  apply (find_named_permutation key _ _ Hnodup Hperm).
Qed.

Lemma directDependencies_count_witness :
  length (dependencies (directDependencies Samples.R [Samples.A1; Samples.B])) <= 3
  /\ (length (dependencies (directDependencies Samples.R [Samples.A1; Samples.B])) = 3
      <-> Forall (fun key => key ∈ map name [Samples.A1; Samples.B]) ["B"; "Z"; "A"]).
Proof.
  exact (directDependencies_count Samples.R [Samples.A1; Samples.B] _ eq_refl).
Defined.

Lemma directDependencies_any_order_witness :
  directDependencies Samples.R [Samples.A1; Samples.B]
  = directDependencies Samples.R [Samples.B; Samples.A1].
Proof.
  apply directDependencies_any_order.
  - cbn. repeat constructor; rewrite ?elem_of_cons, ?elem_of_nil; intuition discriminate.
  - apply Permutation_swap.
Defined.

(** ** The report of one rule and the report of all *)

Section OneRule.
Implicit Types (R : list RuleResult.t) (E : list RuleError.t).

Lemma alter_keeps {A B} `{Inhabited A} (f : A -> A) (g : A -> B) (l : list A) i j :
  (forall x, g (f x) = g x) -> g (alter f i l !!! j) = g (l !!! j).
Proof.
  intros Hg. rewrite !list_lookup_total_alt, list_lookup_alter.
  case_decide; [subst i|reflexivity].
  destruct (l !! j); cbn; [apply Hg | reflexivity].
Qed.

Lemma foldl_stampInto_keeps {B} (g : RuleError.t -> B) (objects : list RuleResult.t) E j :
  (forall id error, g (RuleError.set_ruleId id error) = g error) ->
  g (foldl stampInto E objects !!! j) = g (E !!! j).
Proof.
  intros Hg. revert E.
  induction objects as [|[id|id held] objects IH]; intros E; cbn [foldl stampInto];
    [reflexivity | apply IH |].
  rewrite IH. apply alter_keeps. apply Hg.
Qed.

Lemma flatMap_one dragees rule s :
  Array_flatMap (runRule dragees) [rule] s = runRule dragees rule s.
Proof.
  cbn [Array_flatMap]. unfold bind, ret.
  destruct (runRule dragees rule s) as [results s1]. rewrite app_nil_r. reflexivity.
Qed.
End OneRule.

(** X6.  The report of one rule is the report that [asserterHandler] gives
    for the asserter reduced to that rule, with the same effect on the
    store, but for [rulesCount]: the first counts the rules of the
    asserter, the second counts one. *)
Theorem generateReportForRule_as_asserterHandler (asserter : Asserter.t)
    (dragees : list Dragee) (file : string) (rule : Rule.t) (s : Store) :
  Asserter.rule asserter file = Some rule ->
  let (single, s1) := generateReportForRule asserter dragees file s in
  let (full, s2) := asserterHandler (onlyRule asserter rule) dragees s in
  s1 = s2
  /\ Report.pass single = Report.pass full
  /\ Report.namespace single = Report.namespace full
  /\ Report.errors single = Report.errors full
  /\ passCount (Report.stats single) = passCount (Report.stats full)
  /\ errorsCount (Report.stats single) = errorsCount (Report.stats full)
  /\ rulesCount (Report.stats single) = length (Asserter.rules asserter)
  /\ rulesCount (Report.stats full) = 1.
Proof.
  intros Hrule. rewrite (generateReportForRule_eq _ _ _ _ Hrule), asserterHandler_eq.
  unfold bind. cbn [onlyRule Asserter.rules]. rewrite flatMap_one.
  destruct (runRule dragees rule s) as [results [R E]].
  rewrite !aggregate_eq. cbn. repeat split; reflexivity.
Qed.

(** X7.  [generateReportForRule] writes [ruleId] fields and nothing else.
    From the store that the handler leaves to the store that is returned, no
    object is added or removed, every result keeps its [pass] and its
    [error], every error keeps its [message] and its [drageeName]; a result
    that the handler did not return and an error that is not in the report
    are left as they were. *)
Theorem generateReportForRule_writes_ruleId_only (asserter : Asserter.t)
    (dragees : list Dragee) (file : string) (rule : Rule.t) (s : Store) :
  Asserter.rule asserter file = Some rule ->
  let (results, s1) := Rule.handler rule dragees s in
  let (report, s2) := generateReportForRule asserter dragees file s in
  length (resultObjects s2) = length (resultObjects s1)
  /\ length (errorObjects s2) = length (errorObjects s1)
  /\ (forall result,
        RuleResult.pass (readResult s2 result) = RuleResult.pass (readResult s1 result)
        /\ RuleResult.error (readResult s2 result)
           = RuleResult.error (readResult s1 result))
  /\ (forall error,
        RuleError.message (readError s2 error) = RuleError.message (readError s1 error)
        /\ RuleError.drageeName (readError s2 error)
           = RuleError.drageeName (readError s1 error))
  /\ (forall result, result ∉ results -> readResult s2 result = readResult s1 result)
  /\ (forall error,
        error ∉ Report.errors report -> readError s2 error = readError s1 error).
Proof.
  intros Hrule. rewrite (generateReportForRule_eq _ _ _ _ Hrule).
  unfold bind. rewrite runRule_eq.
  destruct (Rule.handler rule dragees s) as [results [R E]].
  cbn [fst snd resultObjects errorObjects].
  rewrite aggregate_eq, propagate_all. cbn zeta.
  unfold readResult, readError. cbn [resultObjects errorObjects Report.errors].
  set (R' := stampAll (Some (Rule.id rule)) results R).
  split; [apply stampAll_length|].
  split; [apply foldl_stampInto_length|].
  split; [intros result; split; [apply stampAll_pass | apply stampAll_error]|].
  split; [intros error; split; apply foldl_stampInto_keeps; reflexivity|].
  split.
  - intros result Hnot. rewrite !list_lookup_total_alt. subst R'.
    rewrite (stampAll_lookup _ results R result), decide_False by exact Hnot.
    reflexivity.
  - intros error Hnot. rewrite !list_lookup_total_alt.
    rewrite foldl_stampInto_other; [reflexivity|].
    rewrite <- (omap_reads (fun result : loc => R' !!! result) RuleResult.error).
    exact Hnot.
Qed.

Lemma generateReportForRule_as_asserterHandler_witness :
  let (single, s1) :=
    generateReportForRule Samples.layering [Samples.X; Samples.B] "no-cycle"
                          Samples.emptyStore in
  let (full, s2) :=
    asserterHandler (onlyRule Samples.layering Samples.noCycle) [Samples.X; Samples.B]
                    Samples.emptyStore in
  s1 = s2
  /\ Report.pass single = Report.pass full
  /\ Report.namespace single = Report.namespace full
  /\ Report.errors single = Report.errors full
  /\ passCount (Report.stats single) = passCount (Report.stats full)
  /\ errorsCount (Report.stats single) = errorsCount (Report.stats full)
  /\ rulesCount (Report.stats single) = 2
  /\ rulesCount (Report.stats full) = 1.
Proof.
  exact (generateReportForRule_as_asserterHandler
           Samples.layering [Samples.X; Samples.B] "no-cycle" Samples.noCycle
           Samples.emptyStore eq_refl).
Defined.

Lemma generateReportForRule_writes_ruleId_only_witness :
  let (report, s2) :=
    generateReportForRule Samples.lookupFirst [] "first" Samples.sharedStore in
  length (resultObjects s2) = 1
  /\ length (errorObjects s2) = 1
  /\ RuleError.message (readError s2 0) = "cycle detected"
  /\ RuleError.drageeName (readError s2 0) = "X".
Proof.
  pose proof (generateReportForRule_writes_ruleId_only
                Samples.lookupFirst [] "first" Samples.first Samples.sharedStore eq_refl)
    as Hkept.
  cbn in Hkept. destruct Hkept as (Hresults & Herrors & _ & Hfields & _).
  destruct (Hfields 0) as [Hmessage Hname].
  split; [exact Hresults|]. split; [exact Herrors|]. split; assumption.
Defined.

(** ** Reports of rules written with [successful] and [failed] *)

Section Verdicts.
Implicit Types (owned : list (Rule.t * Verdict)).

Lemma builtErrors_stampOf owned :
  builtErrors (map stampOf owned) = omap reportedError owned.
Proof.
  unfold builtErrors. induction owned as [|[rule [|d m]] owned IH]; cbn;
    rewrite ?IH; reflexivity.
Qed.

Lemma passes_stampOf owned :
  List.filter passes (map stampOf owned)
  = map stampOf (List.filter (fun o => holds (snd o)) owned).
Proof.
  induction owned as [|[rule [|d m]] owned IH]; cbn; rewrite ?IH; reflexivity.
Qed.

Lemma no_error_all_hold owned :
  Nat.eqb (length (omap reportedError owned)) 0
  = forallb (fun o => holds (snd o)) owned.
Proof.
  induction owned as [|[rule [|d m]] owned IH]; cbn; [reflexivity | exact IH | reflexivity].
Qed.

Lemma valueOf_built asserter dragees decisions s :
  Forall2 decides (Asserter.rules asserter) decisions ->
  valueOf asserter dragees s
  = reportOf asserter
             (map stampOf (verdictsOf dragees (Asserter.rules asserter) decisions)).
Proof.
  intros Hdec. pose proof (asserterHandler_value asserter dragees decisions s Hdec) as H.
  unfold valueOf. destruct (asserterHandler asserter dragees s) as [report s'].
  destruct H as [H _]. exact H.
Qed.

Lemma verdictsOf_app dragees rules1 rules2 decisions1 decisions2 :
  length rules1 = length decisions1 ->
  verdictsOf dragees (rules1 ++ rules2) (decisions1 ++ decisions2)
  = verdictsOf dragees rules1 decisions1 ++ verdictsOf dragees rules2 decisions2.
Proof.
  revert decisions1. induction rules1 as [|rule rules1 IH]; intros [|decision decisions1] Hlen;
    try discriminate; [reflexivity|].
  cbn [app verdictsOf]. rewrite IH by (injection Hlen; auto).
  rewrite app_assoc. reflexivity.
Qed.
End Verdicts.

(** X8.  When the handler of every rule decides by a function of the
    dragees and builds its results with [successful] and [failed], the
    report is a function of these verdicts alone, whatever the store held
    before: its errors are those of the verdicts that are broken, rule after
    rule and in the order of each handler, each with the id of its rule, the
    message and the name of the dragee given to [failed]; it passes exactly
    when every verdict holds; and it counts the verdicts that hold, the
    verdicts that are broken, and the rules. *)
Theorem asserterHandler_reports_verdicts (asserter : Asserter.t) (dragees : list Dragee)
    (decisions : list (list Dragee -> list Verdict)) (s : Store) :
  Forall2 decides (Asserter.rules asserter) decisions ->
  let owned := verdictsOf dragees (Asserter.rules asserter) decisions in
  valueOf asserter dragees s
  = {| ReportValue.pass := forallb (fun o => holds (snd o)) owned;
       ReportValue.namespace := Asserter.namespace asserter;
       ReportValue.errors := omap reportedError owned;
       ReportValue.stats :=
         {| rulesCount := length (Asserter.rules asserter);
            passCount := length (List.filter (fun o => holds (snd o)) owned);
            errorsCount := length (omap reportedError owned) |} |}.
Proof.
  intros Hdec owned. rewrite (valueOf_built _ _ _ _ Hdec). fold owned.
  unfold reportOf.
  rewrite builtErrors_stampOf, passes_stampOf, length_map, no_error_all_hold.
  reflexivity.
Qed.

(** X9.  With such handlers, the report of the rules of two lists put
    together is made of the reports of each list: the errors of the first
    followed by those of the second, the sums of the counts, and a pass
    when both pass. *)
Theorem asserterHandler_rules_append (asserter : Asserter.t)
    (rules1 rules2 : list Rule.t) (dragees : list Dragee) (s s1 s2 : Store) :
  Forall pureRule rules1 ->
  Forall pureRule rules2 ->
  let both := valueOf (withRules asserter (rules1 ++ rules2)) dragees s in
  let first := valueOf (withRules asserter rules1) dragees s1 in
  let second := valueOf (withRules asserter rules2) dragees s2 in
  ReportValue.errors both = ReportValue.errors first ++ ReportValue.errors second
  /\ ReportValue.pass both = ReportValue.pass first && ReportValue.pass second
  /\ passCount (ReportValue.stats both)
     = passCount (ReportValue.stats first) + passCount (ReportValue.stats second)
  /\ errorsCount (ReportValue.stats both)
     = errorsCount (ReportValue.stats first) + errorsCount (ReportValue.stats second)
  /\ rulesCount (ReportValue.stats both)
     = rulesCount (ReportValue.stats first) + rulesCount (ReportValue.stats second).
Proof.
  intros Hpure1 Hpure2.
  destruct (pure_rules_decided _ Hpure1) as [decisions1 Hdec1].
  destruct (pure_rules_decided _ Hpure2) as [decisions2 Hdec2].
  assert (Hdec : Forall2 decides (rules1 ++ rules2) (decisions1 ++ decisions2))
    by (apply Forall2_app; assumption).
  cbn zeta.
  rewrite (valueOf_built (withRules asserter (rules1 ++ rules2)) dragees _ s Hdec).
  rewrite (valueOf_built (withRules asserter rules1) dragees _ s1 Hdec1).
  rewrite (valueOf_built (withRules asserter rules2) dragees _ s2 Hdec2).
  cbn [withRules Asserter.rules].
  rewrite verdictsOf_app by (eapply Forall2_length; exact Hdec1).
  unfold reportOf.
  cbn [ReportValue.errors ReportValue.pass ReportValue.stats
       passCount errorsCount rulesCount withRules Asserter.rules].
  rewrite map_app, builtErrors_app, List.filter_app, !length_app.
  repeat split; try reflexivity.
  destruct (length (builtErrors (map stampOf (verdictsOf dragees rules1 decisions1))));
    reflexivity.
Qed.

(** X10.  With such handlers no object is shared, and every result ends
    with the id of the rule whose handler returned it, as does its error:
    the stamps are right for every asserter made of rules that build their
    results with [successful] and [failed]. *)
Theorem built_results_are_stamped (asserter : Asserter.t) (dragees : list Dragee)
    (s : Store) :
  Forall pureRule (Asserter.rules asserter) ->
  stampedByProducer asserter dragees s.
Proof.
  intros Hpure.
  assert (Hadds : Forall (fun rule => addsOnly (Rule.handler rule))
                         (Asserter.rules asserter)).
  { eapply Forall_impl; [exact Hpure|]. intros rule. apply pure_addsOnly. }
  pose proof (pure_noSharing asserter dragees s Hpure) as Hshare.
  unfold noSharing, stampedByProducer in *.
  pose proof (handlerCalls_rules dragees (Asserter.rules asserter) s) as Hrules.
  pose proof (handlerCalls_stamped dragees _ Hadds s) as Hrun.
  rewrite asserterHandler_eq. unfold bind. rewrite flatMap_handlerCalls.
  destruct (handlerCalls dragees (Asserter.rules asserter) s) as [calls [R1 E1]].
  cbn [fst snd] in *. destruct Hshare as [Hresults Herrors].
  destruct (Hrun Hresults) as (_ & _ & _ & Hcalls). clear Hrun.
  rewrite aggregate_eq. cbn zeta. rewrite propagate_all.
  split; [exact Hrules|]. split; [|reflexivity].
  unfold readResult in *. cbn [resultObjects errorObjects] in *.
  rewrite (omap_reads (fun result => R1 !!! result) RuleResult.error) in Herrors.
  apply Forall_forall. intros [rule results] Hcall.
  pose proof (proj1 (Forall_forall _ _) Hcalls _ Hcall) as Hstamped.
  cbn [fst snd] in *.
  apply Forall_forall. intros result Hin.
  pose proof (proj1 (Forall_forall _ _) Hstamped _ Hin) as [Hid Halloc].
  unfold stampedBy, readResult, readError. cbn [resultObjects errorObjects].
  split; [exact Hid|].
  intros error Herror.
  apply foldl_stampInto_held; [exact Herrors | | apply Halloc, Herror].
  assert (Hobject : R1 !!! result = RuleResult.Failed (Some (Rule.id rule)) error).
  { destruct (R1 !!! result); cbn in *; congruence. }
  rewrite <- Hobject.
  apply (list_elem_of_fmap_2 (fun result : loc => R1 !!! result)).
  apply (elem_of_concat_2 _ results); [exact Hin|].
  apply (list_elem_of_fmap_2 snd _ (rule, results)), Hcall.
Qed.

Lemma sample_rules_pure : Forall pureRule (Asserter.rules Samples.layering).
Proof.
  repeat constructor.
  - exists Samples.noCycleVerdicts. reflexivity.
  - exists (fun dragees => map (fun _ => Holds) dragees). reflexivity.
Defined.

Lemma asserterHandler_reports_verdicts_witness :
  valueOf Samples.layering [Samples.X; Samples.B] Samples.sharedStore
  = {| ReportValue.pass := false;
       ReportValue.namespace := "layering";
       ReportValue.errors :=
         [{| RuleError.ruleId := Some "layering/no-cycle";
             RuleError.message := "cycle detected";
             RuleError.drageeName := "X" |}];
       ReportValue.stats := {| rulesCount := 2; passCount := 3; errorsCount := 1 |} |}.
Proof.
  rewrite (asserterHandler_reports_verdicts Samples.layering [Samples.X; Samples.B]
             [Samples.noCycleVerdicts; fun dragees => map (fun _ => Holds) dragees]).
  - reflexivity.
  - repeat constructor; intros dragees s; reflexivity.
Defined.

Lemma asserterHandler_rules_append_witness :
  let both :=
    valueOf (withRules Samples.layering ([Samples.noCycle] ++ [Samples.allPass]))
            [Samples.X; Samples.B] Samples.emptyStore in
  let first :=
    valueOf (withRules Samples.layering [Samples.noCycle])
            [Samples.X; Samples.B] Samples.emptyStore in
  let second :=
    valueOf (withRules Samples.layering [Samples.allPass])
            [Samples.X; Samples.B] Samples.sharedStore in
  ReportValue.errors both = ReportValue.errors first ++ ReportValue.errors second
  /\ ReportValue.pass both = ReportValue.pass first && ReportValue.pass second
  /\ passCount (ReportValue.stats both)
     = passCount (ReportValue.stats first) + passCount (ReportValue.stats second)
  /\ errorsCount (ReportValue.stats both)
     = errorsCount (ReportValue.stats first) + errorsCount (ReportValue.stats second)
  /\ rulesCount (ReportValue.stats both)
     = rulesCount (ReportValue.stats first) + rulesCount (ReportValue.stats second).
Proof.
  apply (asserterHandler_rules_append Samples.layering [Samples.noCycle] [Samples.allPass]).
  - repeat constructor. exists Samples.noCycleVerdicts. reflexivity.
  - repeat constructor. exists (fun dragees => map (fun _ => Holds) dragees). reflexivity.
Defined.

Lemma built_results_are_stamped_witness :
  stampedByProducer Samples.layering [Samples.X; Samples.B] Samples.sharedStore.
Proof. exact (built_results_are_stamped _ _ _ sample_rules_pure). Defined.

(** ** What [multipleExpectDragees] builds *)

Section Building.
Implicit Types (R : list RuleResult.t) (E : list RuleError.t).

Lemma Array_map_app {A B} (f : A -> M B) (xs ys : list A) s :
  Array_map f (xs ++ ys) s
  = (let (first, s1) := Array_map f xs s in
     let (second, s2) := Array_map f ys s1 in
     (first ++ second, s2)).
Proof.
  revert s. induction xs as [|x xs IH]; intros s.
  - cbn. destruct (Array_map f ys s) as [second s2]. reflexivity.
  - cbn [app Array_map]. unfold bind, ret. destruct (f x s) as [y s0].
    rewrite IH. destruct (Array_map f xs s0) as [first s1].
    destruct (Array_map f ys s1) as [second s2]. reflexivity.
Qed.

Lemma builtErrors_failing root errorMsg evalFn (dragees : list Dragee) :
  length (builtErrors (map (pair None) (map (verdictFor root errorMsg evalFn) dragees)))
  = length (List.filter (fun d => negb (evalFn d)) dragees).
Proof.
  induction dragees as [|d dragees IH]; [reflexivity|].
  cbn [map List.filter]. unfold builtErrors in *. cbn [omap list_omap].
  unfold builtError at 1, verdictFor at 1. cbn [snd fst].
  destruct (evalFn d); cbn [negb length]; rewrite IH; reflexivity.
Qed.
End Building.

(** X11.  [multipleExpectDragees] builds one new result for every dragee it
    is given and one new error for every dragee that the evaluation function
    rejects: the results it returns are as many as the dragees, all
    different, none of them an object that was there before, and the objects
    that were there before are left as they were.  For no dragee, it builds
    and returns nothing. *)
Theorem multipleExpectDragees_builds (root : Dragee) (dragees : list Dragee)
    (errorMsg : string) (evalFn : Dragee -> bool) (s : Store) :
  let (results, s') := multipleExpectDragees root dragees errorMsg evalFn s in
  length results = length dragees
  /\ NoDup results
  /\ Forall (fun result =>
               length (resultObjects s) <= result < length (resultObjects s'))
            results
  /\ length (resultObjects s') = length (resultObjects s) + length dragees
  /\ length (errorObjects s')
     = length (errorObjects s)
       + length (List.filter (fun d => negb (evalFn d)) dragees)
  /\ (forall result,
        result < length (resultObjects s) -> readResult s' result = readResult s result)
  /\ (forall error,
        error < length (errorObjects s) -> readError s' error = readError s error).
Proof.
  rewrite multipleExpectDragees_constructs. destruct s as [R E].
  rewrite construct_all. unfold readResult, readError.
  cbn [resultObjects errorObjects].
  rewrite !length_app, builtResults_length, !length_map, builtErrors_failing, length_seq.
  split; [reflexivity|]. split; [apply NoDup_seq|]. split.
  - apply Forall_forall. intros result Hin. apply elem_of_seq in Hin. lia.
  - split; [reflexivity|]. split; [reflexivity|].
    split; intros i Hi; apply lookup_total_app_l; exact Hi.
Qed.

(** X12.  [multipleExpectDragees] on one dragee is [expectDragee], and on two
    lists put together it is the call on the first followed by the call on
    the second, the results of the second after those of the first. *)
Theorem multipleExpectDragees_composes (root d : Dragee) (dragees1 dragees2 : list Dragee)
    (errorMsg : string) (evalFn : Dragee -> bool) (s : Store) :
  multipleExpectDragees root [d] errorMsg evalFn s
  = (let (result, s1) := expectDragee root d errorMsg evalFn s in ([result], s1))
  /\ multipleExpectDragees root (dragees1 ++ dragees2) errorMsg evalFn s
     = (let (first, s1) := multipleExpectDragees root dragees1 errorMsg evalFn s in
        let (second, s2) := multipleExpectDragees root dragees2 errorMsg evalFn s1 in
        (first ++ second, s2)).
Proof.
  split.
  - unfold multipleExpectDragees, expectDragee. cbn [Array_map]. unfold bind, ret.
    destruct ((if evalFn d then successful else failed root errorMsg) s); reflexivity.
  - unfold multipleExpectDragees. apply Array_map_app.
Qed.

(** ** Stamps on shared objects *)

Section SharedStamps.
Implicit Types (R : list RuleResult.t) (E : list RuleError.t).

Lemma foldl_stampInto_same_kept (objects : list RuleResult.t) E id0 (error : loc) :
  (forall id held, RuleResult.Failed id held ∈ objects -> id = id0) ->
  RuleError.ruleId (E !!! error) = id0 ->
  RuleError.ruleId (foldl stampInto E objects !!! error) = id0.
Proof.
  revert E. induction objects as [|[id|id held] objects IH]; intros E Hall Hnow;
    cbn [foldl stampInto].
  - exact Hnow.
  - apply IH; [|exact Hnow]. intros id' held' Hin. eapply Hall.
    apply list_elem_of_further. exact Hin.
  - apply IH.
    + intros id' held' Hin. eapply Hall. apply list_elem_of_further. exact Hin.
    + rewrite list_lookup_total_alter. case_decide as Hcase; [|exact Hnow].
      cbn. apply (Hall id held), list_elem_of_here.
Qed.

Lemma foldl_stampInto_same (objects : list RuleResult.t) E id0 id (error : loc) :
  (forall id held, RuleResult.Failed id held ∈ objects -> id = id0) ->
  RuleResult.Failed id error ∈ objects ->
  error < length E ->
  RuleError.ruleId (foldl stampInto E objects !!! error) = id0.
Proof.
  revert E. induction objects as [|[id'|id' held] objects IH]; intros E Hall Hin Hlt.
  - apply elem_of_nil in Hin. contradiction.
  - cbn [foldl stampInto]. apply elem_of_cons in Hin as [Hin|Hin]; [discriminate|].
    apply IH; [|exact Hin|exact Hlt].
    intros id1 held1 Hin1. eapply Hall. apply list_elem_of_further. exact Hin1.
  - assert (Htail : forall id1 held1,
              RuleResult.Failed id1 held1 ∈ objects -> id1 = id0).
    { intros id1 held1 Hin1. eapply Hall. apply list_elem_of_further. exact Hin1. }
    cbn [foldl stampInto]. apply elem_of_cons in Hin as [Heq|Hin].
    + injection Heq as <- <-. apply foldl_stampInto_same_kept; [exact Htail|].
      rewrite list_lookup_total_alter_eq by exact Hlt. cbn.
      apply (Hall id error), list_elem_of_here.
    + apply IH; [exact Htail | exact Hin | rewrite length_alter; exact Hlt].
Qed.

Lemma stampAll_returned id (results : list loc) R (result : loc) :
  result ∈ results -> result < length R ->
  stampAll id results R !!! result = RuleResult.set_ruleId id (R !!! result).
Proof.
  intros Hin Hlt. destruct (lookup_lt_is_Some_2 R result Hlt) as [object Hobj].
  rewrite (list_lookup_total_correct R result object Hobj).
  apply list_lookup_total_correct.
  rewrite (stampAll_lookup id results R result), decide_True by exact Hin.
  rewrite Hobj. reflexivity.
Qed.

Lemma lastReturning_none (calls : list (Rule.t * list loc)) (result : loc) :
  lastReturning calls result = None -> result ∉ concat (map snd calls).
Proof.
  induction calls as [|[rule results] calls IH]; cbn.
  - intros _. apply not_elem_of_nil.
  - destruct (lastReturning calls result); [discriminate|].
    case_decide as Hnot; [discriminate|].
    intros _. apply not_elem_of_app. split; [exact Hnot | apply IH; reflexivity].
Qed.

(** Once the handlers were called, a result that a call returned is stamped
    by the last call that returned it. *)
Lemma handlerCalls_last dragees rules :
  Forall (fun rule => keepsResults (Rule.handler rule)) rules ->
  forall s,
    let (calls, s1) := handlerCalls dragees rules s in
    length (resultObjects s) <= length (resultObjects s1)
    /\ (forall l : nat,
          l < length (resultObjects s) -> lastReturning calls l = None ->
          resultObjects s1 !! l = resultObjects s !! l)
    /\ (forall (l : nat) rule,
          lastReturning calls l = Some rule ->
          RuleResult.ruleId (readResult s1 l) = Some (Rule.id rule)).
Proof.
  induction 1 as [|rule rules Hadds _ IH]; intros s.
  - cbn. repeat split; auto. discriminate.
  - rewrite handlerCalls_cons, runRule_eq.
    specialize (Hadds dragees s).
    destruct (Rule.handler rule dragees s) as [results [Ra Ea]].
    cbn [fst snd resultObjects errorObjects] in *.
    destruct Hadds as ((added & ->) & Hresults).
    set (Rb := stampAll (Some (Rule.id rule)) results (resultObjects s ++ added)).
    specialize (IH (mkStore Rb Ea)).
    destruct (handlerCalls dragees rules (mkStore Rb Ea)) as [calls [R1 E1]].
    cbn [resultObjects errorObjects] in *.
    destruct IH as (HR1 & Hframe & Hlast).
    assert (HRb : length Rb = length (resultObjects s ++ added))
      by apply stampAll_length.
    rewrite length_app in HRb.
    split; [lia|]. split.
    + intros l Hl Hnone. cbn [lastReturning] in Hnone.
      destruct (lastReturning calls l) eqn:Hcalls; [discriminate Hnone|].
      case_decide as Hnot; [discriminate Hnone|].
      rewrite Hframe by (lia || exact Hcalls).
      subst Rb. rewrite (stampAll_lookup _ results _ l), decide_False by exact Hnot.
      apply lookup_app_l. exact Hl.
    + intros l owner Hsome. cbn [lastReturning] in Hsome.
      destruct (lastReturning calls l) as [later|] eqn:Hcalls.
      * injection Hsome as <-. apply Hlast. exact Hcalls.
      * case_decide as Hin; [|discriminate Hsome].
        injection Hsome as <-.
        pose proof (proj1 (Forall_forall _ _) Hresults _ Hin) as Hlt.
        unfold readResult. cbn [resultObjects].
        assert (Hlook : R1 !! l = Rb !! l)
          by (apply Hframe; [rewrite length_app in Hlt; lia | exact Hcalls]).
        rewrite (list_lookup_total_alt R1 l), Hlook, <- (list_lookup_total_alt Rb l).
        subst Rb. rewrite stampAll_returned by assumption.
        destruct ((resultObjects s ++ added) !!! l); reflexivity.
Qed.
End SharedStamps.

(** X13.  In the report of one rule the stamps are right even when objects
    are shared: whenever the results that the handler returns are objects of
    the store, every one of them ends with the id of the rule, and so does
    its error. *)
Theorem generateReportForRule_stamps (asserter : Asserter.t) (dragees : list Dragee)
    (file : string) (rule : Rule.t) (s : Store) :
  Asserter.rule asserter file = Some rule ->
  let (results, s1) := Rule.handler rule dragees s in
  Forall (existsIn s1) results ->
  let (report, s2) := generateReportForRule asserter dragees file s in
  Forall (stampedBy s2 rule) results.
Proof.
  intros Hrule. rewrite (generateReportForRule_eq _ _ _ _ Hrule).
  unfold bind. rewrite runRule_eq.
  destruct (Rule.handler rule dragees s) as [results [R E]].
  cbn [fst snd resultObjects errorObjects]. intros Hexist.
  rewrite aggregate_eq, propagate_all. cbn zeta.
  set (R' := stampAll (Some (Rule.id rule)) results R).
  assert (Hread : forall result,
            result ∈ results ->
            R' !!! result = RuleResult.set_ruleId (Some (Rule.id rule)) (R !!! result)).
  { intros result Hin. apply stampAll_returned; [exact Hin|].
    apply (proj1 (Forall_forall _ _) Hexist _ Hin). }
  apply Forall_forall. intros result Hin.
  unfold stampedBy, readResult, readError. cbn [resultObjects errorObjects].
  rewrite (Hread _ Hin). split; [destruct (R !!! result); reflexivity|].
  intros error Herror.
  apply (foldl_stampInto_same _ _ _ (Some (Rule.id rule))).
  - intros id held Hheld.
    apply (list_elem_of_fmap_1 (fun result : loc => R' !!! result)) in Hheld
      as (other & Hother & Hin').
    rewrite (Hread _ Hin') in Hother. destruct (R !!! other); cbn in Hother; congruence.
  - apply (list_elem_of_fmap_2' (fun result : loc => R' !!! result) _ result); [exact Hin|].
    rewrite (Hread _ Hin). destruct (R !!! result); cbn in *; congruence.
  - destruct (proj1 (Forall_forall _ _) Hexist _ Hin) as [_ Halloc].
    apply Halloc. unfold readResult. cbn [resultObjects].
    destruct (R !!! result); exact Herror.
Qed.

(** X14.  When the handlers leave the result objects that exist as they
    are, a result that several rules return ends with the id of the last rule
    that returned it: every later stamp replaces the earlier one. *)
Theorem asserterHandler_last_stamp_wins (asserter : Asserter.t) (dragees : list Dragee)
    (s : Store) (result : loc) (rule : Rule.t) :
  Forall (fun rule => keepsResults (Rule.handler rule)) (Asserter.rules asserter) ->
  let (calls, _) := handlerCalls dragees (Asserter.rules asserter) s in
  lastReturning calls result = Some rule ->
  let (report, s') := asserterHandler asserter dragees s in
  RuleResult.ruleId (readResult s' result) = Some (Rule.id rule).
Proof.
  intros Hadds. pose proof (handlerCalls_last dragees _ Hadds s) as Hrun.
  rewrite asserterHandler_eq. unfold bind. rewrite flatMap_handlerCalls.
  destruct (handlerCalls dragees (Asserter.rules asserter) s) as [calls [R1 E1]].
  cbn [fst snd]. intros Hlast. destruct Hrun as (_ & _ & Hstamped).
  rewrite aggregate_eq. exact (Hstamped result rule Hlast).
Qed.

Lemma singletonHandler_keepsResults : keepsResults Samples.singletonHandler.
Proof.
  intros dragees [[|object R] E]; cbn.
  - split; [exists [RuleResult.Successful None]; reflexivity|].
    constructor; [cbn [length]; lia | constructor].
  - split; [exists []; rewrite app_nil_r; reflexivity|].
    constructor; [cbn [length]; lia | constructor].
Qed.

Lemma generateReportForRule_stamps_witness :
  let (report, s2) :=
    generateReportForRule Samples.lookupFirst [] "first" Samples.sharedStore in
  Forall (stampedBy s2 Samples.first) [0].
Proof.
  pose proof (generateReportForRule_stamps
                Samples.lookupFirst [] "first" Samples.first Samples.sharedStore eq_refl)
    as Hstamps.
  cbn in Hstamps. apply Hstamps.
  constructor; [|constructor]. split; [cbn; lia|].
  intros held Hheld. cbn in Hheld. injection Hheld as <-. cbn. lia.
Defined.

Lemma asserterHandler_last_stamp_wins_witness :
  let (report, s') := asserterHandler Samples.singletons [] Samples.emptyStore in
  RuleResult.ruleId (readResult s' 0) = Some "layering/second".
Proof.
  pose proof (asserterHandler_last_stamp_wins Samples.singletons [] Samples.emptyStore 0
                {| Rule.id := "layering/second"; Rule.label := "second";
                   Rule.severity := ERROR; Rule.handler := Samples.singletonHandler |})
    as Hlast.
  cbn in Hlast. apply Hlast; [|reflexivity].
  constructor; [|constructor; [|constructor]]; apply singletonHandler_keepsResults.
Defined.

(** ** Stamps and the rules that own them *)

Section Owners.
Implicit Types (R : list RuleResult.t) (E : list RuleError.t).
Implicit Types (calls : list (Rule.t * list loc)).

Lemma elem_of_concat_1 {A} (x : A) (ls : list (list A)) :
  x ∈ concat ls -> exists l, x ∈ l /\ l ∈ ls.
Proof.
  induction ls as [|l ls IH]; cbn.
  - intros Hx. apply elem_of_nil in Hx. contradiction.
  - intros [Hx|Hx]%elem_of_app.
    + exists l. split; [exact Hx | apply list_elem_of_here].
    + destruct (IH Hx) as (l' & Hx' & Hl'). exists l'.
      split; [exact Hx' | apply list_elem_of_further, Hl'].
Qed.

Lemma returned_by_call calls (result : nat) :
  result ∈ concat (map snd calls) ->
  exists call, call ∈ calls /\ result ∈ snd call.
Proof.
  intros Hin. apply elem_of_concat_1 in Hin as (results & Hresult & Hresults).
  apply (list_elem_of_fmap_1 snd) in Hresults as (call & -> & Hcall).
  exists call. split; assumption.
Qed.

Lemma lastReturning_is_Some calls (call : Rule.t * list loc) (result : nat) :
  call ∈ calls -> result ∈ snd call -> is_Some (lastReturning calls result).
Proof.
  induction calls as [|[rule results] calls IH]; intros Hcall Hresult.
  - apply elem_of_nil in Hcall. contradiction.
  - cbn [lastReturning]. apply elem_of_cons in Hcall as [->|Hcall].
    + destruct (lastReturning calls result); [eexists; reflexivity|].
      cbn [snd] in Hresult. rewrite decide_True by exact Hresult. eexists; reflexivity.
    + destruct (IH Hcall Hresult) as [later ->]. eexists; reflexivity.
Qed.

Lemma lastReturning_call calls (result : nat) rule :
  lastReturning calls result = Some rule ->
  exists results, (rule, results) ∈ calls /\ result ∈ results.
Proof.
  induction calls as [|[rule' results'] calls IH]; [discriminate|].
  cbn [lastReturning]. destruct (lastReturning calls result) as [later|].
  - intros [= ->]. destruct (IH eq_refl) as (results & Hcall & Hresult).
    exists results. split; [apply list_elem_of_further, Hcall | exact Hresult].
  - case_decide as Hin; [|discriminate]. intros [= ->].
    exists results'. split; [apply list_elem_of_here | exact Hin].
Qed.

(** Once the handlers were called, a result carries the stamp of the last
    call that returned it, when no call changes the stamps of the results
    returned before. *)
Lemma handlerCalls_kept dragees rules :
  forall (earlier : list loc) s,
    stampsKept dragees rules earlier s ->
    let (calls, s1) := handlerCalls dragees rules s in
    (forall l : nat,
       l ∈ earlier -> lastReturning calls l = None ->
       RuleResult.ruleId <$> resultObjects s1 !! l
       = RuleResult.ruleId <$> resultObjects s !! l)
    /\ (forall (l : nat) rule,
          lastReturning calls l = Some rule ->
          RuleResult.ruleId <$> resultObjects s1 !! l = Some (Some (Rule.id rule))).
Proof.
  induction rules as [|rule rules IH]; intros earlier s Hkept.
  - cbn. split; [reflexivity | discriminate].
  - rewrite handlerCalls_cons, runRule_eq. cbn [stampsKept] in Hkept.
    destruct (Rule.handler rule dragees s) as [results [Ra Ea]].
    rewrite Array_map_stampRuleId in Hkept.
    cbn [fst snd resultObjects errorObjects] in *.
    destruct Hkept as (Hearlier & Hexist & Hrest).
    set (Rb := stampAll (Some (Rule.id rule)) results Ra) in *.
    specialize (IH _ _ Hrest).
    destruct (handlerCalls dragees rules (mkStore Rb Ea)) as [calls [R1 E1]].
    cbn [resultObjects errorObjects] in *.
    destruct IH as [Hframe Hlast]. split.
    + intros l Hl Hnone. cbn [lastReturning] in Hnone.
      destruct (lastReturning calls l) eqn:Hcalls; [discriminate Hnone|].
      case_decide as Hnot; [discriminate Hnone|].
      rewrite Hframe; [|apply elem_of_app; left; exact Hl | exact Hcalls].
      subst Rb. rewrite (stampAll_lookup _ results Ra l), decide_False by exact Hnot.
      exact (proj1 (Forall_forall _ _) Hearlier l Hl).
    + intros l owner Hsome. cbn [lastReturning] in Hsome.
      destruct (lastReturning calls l) as [later|] eqn:Hcalls.
      * injection Hsome as <-. apply Hlast. exact Hcalls.
      * case_decide as Hin; [|discriminate Hsome]. injection Hsome as <-.
        rewrite Hframe; [|apply elem_of_app; right; exact Hin | exact Hcalls].
        subst Rb. rewrite (stampAll_lookup _ results Ra l), decide_True by exact Hin.
        pose proof (proj1 (Forall_forall _ _) Hexist l Hin) as Hlt.
        destruct (lookup_lt_is_Some_2 Ra l Hlt) as [object ->].
        destruct object; reflexivity.
Qed.

Lemma foldl_stampInto_agree_kept (objects : list RuleResult.t) E id0 (error : nat) :
  (forall id, RuleResult.Failed id error ∈ objects -> id = id0) ->
  RuleError.ruleId (E !!! error) = id0 ->
  RuleError.ruleId (foldl stampInto E objects !!! error) = id0.
Proof.
  revert E. induction objects as [|[id|id held] objects IH]; intros E Hall Hnow;
    cbn [foldl stampInto].
  - exact Hnow.
  - apply IH; [|exact Hnow]. intros id' Hin. apply Hall, list_elem_of_further, Hin.
  - apply IH; [intros id' Hin; apply Hall, list_elem_of_further, Hin|].
    rewrite list_lookup_total_alter. case_decide as Hcase; [|exact Hnow].
    destruct Hcase as [-> _]. cbn. apply Hall, list_elem_of_here.
Qed.

(** An error object ends with the [ruleId] on which the results that hold
    it agree. *)
Lemma foldl_stampInto_agree (objects : list RuleResult.t) E id0 id (error : nat) :
  (forall id, RuleResult.Failed id error ∈ objects -> id = id0) ->
  RuleResult.Failed id error ∈ objects ->
  error < length E ->
  RuleError.ruleId (foldl stampInto E objects !!! error) = id0.
Proof.
  revert E. induction objects as [|[id'|id' held] objects IH]; intros E Hall Hin Hlt.
  - apply elem_of_nil in Hin. contradiction.
  - cbn [foldl stampInto]. apply elem_of_cons in Hin as [Hin|Hin]; [discriminate|].
    apply IH; [|exact Hin|exact Hlt].
    intros id1 Hin1. apply Hall, list_elem_of_further, Hin1.
  - assert (Htail : forall id1, RuleResult.Failed id1 error ∈ objects -> id1 = id0)
      by (intros id1 Hin1; apply Hall, list_elem_of_further, Hin1).
    cbn [foldl stampInto]. apply elem_of_cons in Hin as [Heq|Hin].
    + injection Heq as <- <-. apply foldl_stampInto_agree_kept; [exact Htail|].
      rewrite list_lookup_total_alter_eq by exact Hlt. cbn.
      apply Hall, list_elem_of_here.
    + apply IH; [exact Htail | exact Hin | rewrite length_alter; exact Hlt].
Qed.

(** After the calls, every result carries the id of the rule of a call
    that returned it. *)
Lemma handlerCalls_owned dragees rules s :
  stampsKept dragees rules [] s ->
  let (calls, s1) := handlerCalls dragees rules s in
  sharedWithinIds calls s1 ->
  forall call (result : nat),
    call ∈ calls -> result ∈ snd call ->
    RuleResult.ruleId <$> resultObjects s1 !! result = Some (Some (Rule.id (fst call))).
Proof.
  intros Hkept. pose proof (handlerCalls_kept dragees rules [] s Hkept) as Hrun.
  destruct (handlerCalls dragees rules s) as [calls s1].
  destruct Hrun as [_ Hlast]. intros Hshared call result Hcall Hresult.
  destruct (lastReturning_is_Some calls call result Hcall Hresult) as [owner Howner].
  rewrite (Hlast _ _ Howner).
  destruct (lastReturning_call _ _ _ Howner) as (results & Hcall' & Hresult').
  rewrite (Hshared call (owner, results) result result Hcall Hcall' Hresult Hresult'
             (or_introl eq_refl)).
  reflexivity.
Qed.
End Owners.

(** C4, as it holds.  For every asserter and all dragees, [asserterHandler]
    calls the handlers in the order of the rules, and the errors of the report
    are the errors of the failed results in the order they were returned.
    When every result returned by a call carries the id of the rule of that
    call, and so does its error, objects are shared between rules of the same
    id only.  Conversely, when no object is shared between rules of different
    ids, every result returned by a call carries the id of the rule of that
    call, and so does its error, provided that no handler changes the
    [ruleId] of a result returned before and that the results and their
    errors are objects of the store. *)
Theorem asserterHandler_stamps_by_rule (asserter : Asserter.t) (dragees : list Dragee)
    (s : Store) :
  let (calls, s1) := handlerCalls dragees (Asserter.rules asserter) s in
  let (report, s') := asserterHandler asserter dragees s in
  map fst calls = Asserter.rules asserter
  /\ Report.errors report
     = omap (fun result => RuleResult.error (readResult s' result))
            (concat (map snd calls))
  /\ (allStamped calls s' -> sharedWithinIds calls s1)
  /\ (stampsKept dragees (Asserter.rules asserter) [] s ->
      errorsExist calls s1 ->
      sharedWithinIds calls s1 ->
      allStamped calls s').
Proof.
  pose proof (handlerCalls_rules dragees (Asserter.rules asserter) s) as Hrules.
  pose proof (handlerCalls_owned dragees (Asserter.rules asserter) s) as Howned.
  rewrite asserterHandler_eq. unfold bind. rewrite flatMap_handlerCalls.
  destruct (handlerCalls dragees (Asserter.rules asserter) s) as [calls [R1 E1]].
  cbn [fst snd] in *. rewrite aggregate_eq, propagate_all. cbn zeta.
  split; [exact Hrules|]. split; [reflexivity|].
  unfold allStamped, errorsExist, sharedWithinIds, meet, stampedBy, readResult, readError.
  cbn [resultObjects errorObjects] in *.
  set (E' := foldl stampInto E1 _). split.
  - intros Hstamped call1 call2 result1 result2 Hcall1 Hcall2 Hresult1 Hresult2 Hmeet.
    pose proof (proj1 (Forall_forall _ _)
                  (proj1 (Forall_forall _ _) Hstamped _ Hcall1) _ Hresult1) as [Hid1 Herr1].
    pose proof (proj1 (Forall_forall _ _)
                  (proj1 (Forall_forall _ _) Hstamped _ Hcall2) _ Hresult2) as [Hid2 Herr2].
    destruct Hmeet as [->|(error & Hheld1 & Hheld2)].
    + congruence.
    + specialize (Herr1 _ Hheld1). specialize (Herr2 _ Hheld2). congruence.
  - intros Hkept Hexist Hshared. specialize (Howned Hkept Hshared).
    assert (Hread : forall call (result : nat),
              call ∈ calls -> result ∈ snd call ->
              RuleResult.ruleId (R1 !!! result) = Some (Rule.id (fst call))).
    { intros call result Hcall Hresult. specialize (Howned call result Hcall Hresult).
      rewrite list_lookup_total_alt. destruct (R1 !! result); [|discriminate].
      cbn in *. congruence. }
    apply Forall_forall. intros call Hcall. apply Forall_forall. intros result Hresult.
    split; [exact (Hread call result Hcall Hresult)|].
    intros error Herror.
    assert (Hobject : R1 !!! result = RuleResult.Failed (Some (Rule.id (fst call))) error).
    { specialize (Hread call result Hcall Hresult).
      destruct (R1 !!! result); cbn in *; congruence. }
    subst E'. apply (foldl_stampInto_agree _ _ _ (Some (Rule.id (fst call)))).
    + intros id Hheld.
      apply (list_elem_of_fmap_1 (fun result : loc => R1 !!! result)) in Hheld
        as (other & Hother & Hin).
      apply returned_by_call in Hin as (call' & Hcall' & Hresult').
      assert (Hid' : RuleResult.ruleId (RuleResult.Failed id error)
                     = Some (Rule.id (fst call')))
        by (rewrite Hother; exact (Hread call' other Hcall' Hresult')).
      assert (Hheld' : RuleResult.error ((fun result : loc => R1 !!! result) other)
                       = Some error)
        by (rewrite <- Hother; reflexivity).
      cbn in Hid'. rewrite Hid'. f_equal.
      apply (Hshared call' call other result Hcall' Hcall Hresult' Hresult).
      right. exists error. split; [exact Hheld' | exact Herror].
    + rewrite <- Hobject.
      apply (list_elem_of_fmap_2 (fun result : loc => R1 !!! result)).
      apply (elem_of_concat_2 _ (snd call)); [exact Hresult|].
      apply (list_elem_of_fmap_2 snd), Hcall.
    + exact (proj1 (Forall_forall _ _)
               (proj1 (Forall_forall _ _) Hexist _ Hcall) _ Hresult error Herror).
Qed.

Lemma asserterHandler_stamps_by_rule_witness :
  let (calls, s1) :=
    handlerCalls [Samples.X] (Asserter.rules Samples.mixed) Samples.sharedStore in
  let (report, s') := asserterHandler Samples.mixed [Samples.X] Samples.sharedStore in
  map snd calls = [[0; 0]; [1]]
  /\ Report.errors report = [0; 0; 1]
  /\ allStamped calls s'.
Proof.
  pose proof (asserterHandler_stamps_by_rule Samples.mixed [Samples.X] Samples.sharedStore)
    as Hstamps.
  cbn in Hstamps. destruct Hstamps as (_ & _ & _ & Hstamps).
  cbn. split; [reflexivity|]. split; [reflexivity|]. apply Hstamps.
  - split; [constructor|].
    split; [repeat (apply Forall_cons; split; [lia|]); constructor|].
    split; [repeat (apply Forall_cons; split; [reflexivity|]); constructor|].
    split; [apply Forall_cons; split; [lia | constructor] | exact I].
  - unfold errorsExist, readResult. cbn.
    repeat (apply Forall_cons; split); try (apply Forall_nil; exact I);
      intros error [= <-]; lia.
  - intros call1 call2 result1 result2 Hcall1 Hcall2 Hresult1 Hresult2 Hmeet.
    repeat match goal with
           | H : _ ∈ _ :: _ |- _ => apply elem_of_cons in H as [->|H]
           | H : _ ∈ [] |- _ => apply elem_of_nil in H; contradiction
           | H : _ ∈ snd _ |- _ => progress cbn [snd] in H
           end;
      try reflexivity; exfalso;
      (destruct Hmeet as [Heq|(error & Hheld1 & Hheld2)];
       [discriminate Heq | cbn in Hheld1, Hheld2; congruence]).
Defined.
